(** * chordpro2freeshow: the transformation core, embedded and verified

    The Python sources [models.py], [config.py], [utils.py], [parsers.py]
    and [processor.py] are embedded as Rocq functions.  A Python [str] is a
    sequence of Unicode code points, so text is a list of code points
    ([N]); dictionaries are finite maps; the [re] module is embedded as a
    small backtracking matcher for the fragment of the pattern language the
    program uses. *)

From Stdlib Require Import ZArith NArith Lia Ascii String.
From stdpp Require Import base option list gmap strings sorting.

Set Default Proof Using "Type".
Open Scope nat_scope.

(** ** Python text *)

Definition char := N.
Bind Scope N_scope with char.
Definition str := list char.

(** ASCII literal of the source as code points. *)
Fixpoint lit (s : string) : str :=
  match s with
  | EmptyString => []
  | String a s' => N_of_ascii a :: lit s'
  end.

Definition ch (a : ascii) : char := N_of_ascii a.

Definition in_range (lo hi c : char) : bool := ((lo <=? c) && (c <=? hi))%N.

(** [str.isspace] per character, which is also the class [\s] of a [str]
    pattern: the Unicode white space, the non-breaking space included. *)
Definition isspace (c : char) : bool :=
  in_range 9 13 c || in_range 28 32 c || (c =? 133)%N || (c =? 160)%N
  || (c =? 5760)%N || in_range 8192 8202 c || (c =? 8232)%N || (c =? 8233)%N
  || (c =? 8239)%N || (c =? 8287)%N || (c =? 12288)%N.

(** First code points of the blocks of ten decimal digits of Unicode. *)
Definition digit_blocks : list char :=
  [48; 1632; 1776; 1984; 2406; 2534; 2662; 2790; 2918; 3046; 3174; 3302;
   3430; 3558; 3664; 3792; 3872; 4160; 4240; 6112; 6160; 6470; 6608; 6784;
   6800; 6992; 7088; 7232; 7248; 42528; 43216; 43264; 43472; 43504; 43600;
   44016; 65296; 66720; 68912; 69734; 69872; 69942; 70096; 70384; 70736;
   70864; 71248; 71360; 71472; 71904; 72016; 72784; 73040; 73120; 92768;
   92864; 93008; 123200; 123632; 125264; 130032]%N.

(** The class [\d] of a [str] pattern: every Unicode decimal digit. *)
Definition isdecimal (c : char) : bool :=
  existsb (fun b => in_range b (b + 9) c) digit_blocks
  || in_range 120782 120831 c.

Definition is_ascii_letter (c : char) : bool :=
  in_range 65 90 c || in_range 97 122 c.

Section span.
Context {A : Type} (p : A -> bool).

Fixpoint take_while (l : list A) : list A :=
  match l with
  | x :: l' => if p x then x :: take_while l' else []
  | [] => []
  end.

Fixpoint drop_while (l : list A) : list A :=
  match l with
  | x :: l' => if p x then drop_while l' else l
  | [] => []
  end.

(** What follows a run of the class: nothing, or an element outside it. *)
Definition stops (l : list A) : Prop :=
  match l with
  | [] => True
  | x :: _ => p x = false
  end.
End span.

(** [s.lstrip()], [s.rstrip()], [s.strip()]. *)
Definition lstrip (s : str) : str := drop_while isspace s.
Definition rstrip (s : str) : str := reverse (drop_while isspace (reverse s)).
Definition strip (s : str) : str := rstrip (lstrip s).

Fixpoint str_eqb (a b : str) : bool :=
  match a, b with
  | [], [] => true
  | x :: a', y :: b' => (x =? y)%N && str_eqb a' b'
  | _, _ => false
  end.

(** [s.startswith(p)] *)
Fixpoint startswith (s p : str) : bool :=
  match p, s with
  | [], _ => true
  | x :: p', y :: s' => (x =? y)%N && startswith s' p'
  | _ :: _, [] => false
  end.

(** [k in s] on strings: [k] occurs in [s] as a substring. *)
Fixpoint contains (s k : str) : bool :=
  startswith s k ||
  match s with
  | [] => false
  | _ :: s' => contains s' k
  end.

(** The slice [s[n:-1]]. *)
Definition slice_to_last (n : nat) (s : str) : str :=
  take (length s - 1 - n) (drop n s).

(** [s.split('\n')] *)
Fixpoint split_lines (s : str) : list str :=
  match s with
  | [] => [[]]
  | c :: s' =>
      if (c =? 10)%N then [] :: split_lines s'
      else match split_lines s' with
           | l :: ls => (c :: l) :: ls
           | [] => [[c]]
           end
  end.

(** ['\n'.join(ls)] *)
Fixpoint join_lines (ls : list str) : str :=
  match ls with
  | [] => []
  | [l] => l
  | l :: ls' => l ++ 10%N :: join_lines ls'
  end.

(** The case mappings of Basic Latin and Latin-1 text. *)
Definition is_upper_latin1 (c : char) : bool :=
  in_range 65 90 c || in_range 192 214 c || in_range 216 222 c.

Definition is_lower_latin1 (c : char) : bool :=
  in_range 97 122 c || (c =? 170)%N || (c =? 181)%N || (c =? 186)%N
  || in_range 223 246 c || in_range 248 255 c.

Definition is_cased (c : char) : bool := is_upper_latin1 c || is_lower_latin1 c.

Definition lower_char (c : char) : char :=
  if is_upper_latin1 c then (c + 32)%N else c.

Definition title_char (c : char) : str :=
  if in_range 97 122 c || in_range 224 246 c || in_range 248 254 c
  then [(c - 32)%N]
  else if (c =? 181)%N then [924%N]
  else if (c =? 223)%N then [83%N; 115%N]
  else if (c =? 255)%N then [376%N]
  else [c].

Definition latin1_lower (s : str) : str := map lower_char s.

(** A cased character is title-cased when the character before it is
    uncased (or there is none) and lower-cased otherwise. *)
Fixpoint title_from (prev_cased : bool) (s : str) : str :=
  match s with
  | [] => []
  | c :: s' =>
      if is_cased c
      then (if prev_cased then [lower_char c] else title_char c) ++ title_from true s'
      else c :: title_from false s'
  end.

Definition latin1_title (s : str) : str := title_from false s.

Definition is_latin1 (s : str) : Prop := Forall (fun c => (c < 256)%N) s.

(** [s.lower()] and [s.title()].  The case mappings of Unicode are those of
    the Python run time and change with its version; they are taken as they
    are, and only what they do on Basic Latin and Latin-1 text is relied
    on. *)
Class Casing := {
  lower : str -> str;
  title : str -> str;
  lower_latin1 : forall s, is_latin1 s -> lower s = latin1_lower s;
  title_latin1 : forall s, is_latin1 s -> title s = latin1_title s }.

(** The case mappings that leave every code point beyond Latin-1 as it is;
    the examples, whose text is Basic Latin, are run with them. *)
Definition latin1_casing : Casing :=
  {| lower := latin1_lower;
     title := latin1_title;
     lower_latin1 := fun _ _ => eq_refl;
     title_latin1 := fun _ _ => eq_refl |}.

(** [str(n)] for a non-negative integer. *)
Fixpoint digits_from (fuel : nat) (n : N) (acc : str) : str :=
  match fuel with
  | O => acc
  | S fuel' =>
      let acc' := (48 + n mod 10)%N :: acc in
      if (n <? 10)%N then acc' else digits_from fuel' (n / 10)%N acc'
  end.

Definition str_of_N (n : N) : str := digits_from (S (N.size_nat n)) n [].
Definition str_of_nat (n : nat) : str := str_of_N (N.of_nat n).

(** ** The [re] module

    The program's patterns only repeat character classes, so the pattern
    syntax has the greedy star on classes; sequences, alternatives, greedy
    optional parts, capture groups and the anchors are general. *)

Module Re.

Inductive regex :=
| Cls (p : char -> bool)          (* one character of a class, or a literal *)
| Star (p : char -> bool)         (* p*, greedy *)
| Seq (a b : regex)
| Alt (a b : regex)               (* a|b *)
| Opt (a : regex)                 (* (?:a)?, greedy *)
| Group (n : nat) (a : regex)     (* capture group number n *)
| Bol                             (* ^ *)
| Eol.                            (* $ *)

(** p+ *)
Definition Plus (p : char -> bool) : regex := Seq (Cls p) (Star p).

Definition only (c : char) : char -> bool := fun x => (x =? c)%N.
Definition except (c : char) : char -> bool := fun x => negb (x =? c)%N.
(** The dot: any character but the newline. *)
Definition dot : char -> bool := except 10.

(** Captured groups, most recent first. *)
Definition groups := list (nat * str).

Fixpoint group_of (g : groups) (n : nat) : option str :=
  match g with
  | [] => None
  | (k, v) :: g' => if k =? n then Some v else group_of g' n
  end.

Section matcher.
Context {R : Type}.

(** Greedy repetition of a class at position [i] of the subject, [s]
    being the text still to read: the longest run is tried first, and
    the matcher backs off one character at a time. *)
Fixpoint star_cls (p : char -> bool) (i : nat) (s : str)
    (k : nat -> str -> option R) : option R :=
  match s with
  | c :: s' =>
      if p c
      then match star_cls p (S i) s' k with
           | Some r => Some r
           | None => k i s
           end
      else k i s
  | [] => k i s
  end.

(** Backtracking matcher in continuation-passing style. *)
Fixpoint rmatch (r : regex) (i : nat) (s : str) (g : groups)
    (k : nat -> str -> groups -> option R) : option R :=
  match r with
  | Cls p =>
      match s with
      | c :: s' => if p c then k (S i) s' g else None
      | [] => None
      end
  | Star p => star_cls p i s (fun j t => k j t g)
  | Seq a b => rmatch a i s g (fun j t g' => rmatch b j t g' k)
  | Alt a b =>
      match rmatch a i s g k with
      | Some x => Some x
      | None => rmatch b i s g k
      end
  | Opt a =>
      match rmatch a i s g k with
      | Some x => Some x
      | None => k i s g
      end
  | Group n a =>
      rmatch a i s g (fun j t g' => k j t ((n, take (j - i) s) :: g'))
  | Bol => if i =? 0 then k i s g else None
  | Eol =>
      match s with
      | [] => k i s g
      | [c] => if (c =? 10)%N then k i s g else None
      | _ => None
      end
  end.
End matcher.

(** A match object: [start()], [end()], [group(0)] and the groups. *)
Record mobj := MObj {
  m_start : nat;
  m_end : nat;
  m_text : str;
  m_groups : groups }.

(** [m.group(n)], the empty text standing for a group that took no part. *)
Definition group (m : mobj) (n : nat) : str := default [] (group_of (m_groups m) n).

(** The match of [r] that starts at position [i], [s] being the subject
    from [i] on. *)
Definition match_at (r : regex) (i : nat) (s : str) : option mobj :=
  rmatch r i s [] (fun j _ g => Some (MObj i j (take (j - i) s) g)).

(** [re.match(r, s)] *)
Definition rematch (r : regex) (s : str) : option mobj := match_at r 0 s.

(** The search loop shared by [finditer] and [sub]: at each position the
    pattern is tried; a match is recorded and the scan resumes behind it,
    otherwise the character is passed over.  [skip] counts the characters
    of the last match still to be passed.  A match of no character is
    recorded and the scan moves on by one character; no pattern of this
    program matches the empty text. *)
Inductive token :=
| Lit (c : char)
| Hit (m : mobj).

Fixpoint scan (r : regex) (skip : nat) (i : nat) (s : str) : list token :=
  match s with
  | [] =>
      match skip with
      | O => match match_at r i [] with
             | Some m => [Hit m]
             | None => []
             end
      | S _ => []
      end
  | c :: s' =>
      match skip with
      | S n => scan r n (S i) s'
      | O =>
          match match_at r i s with
          | Some m =>
              match m_end m - i with
              | O => Hit m :: Lit c :: scan r 0 (S i) s'
              | S n => Hit m :: scan r n (S i) s'
              end
          | None => Lit c :: scan r 0 (S i) s'
          end
      end
  end.

(** [list(r.finditer(s))] *)
Definition finditer (r : regex) (s : str) : list mobj :=
  omap (fun t => match t with Hit m => Some m | Lit _ => None end) (scan r 0 0 s).

(** The text of a scan with the matches replaced. *)
Definition render (repl : mobj -> str) (ts : list token) : str :=
  concat (map (fun t => match t with Hit m => repl m | Lit c => [c] end) ts).

(** [r.sub(repl, s)], the replacement given as a function of the match. *)
Definition sub (r : regex) (repl : mobj -> str) (s : str) : str :=
  render repl (scan r 0 0 s).

(** [r.search(s)] *)
Definition search (r : regex) (s : str) : option mobj := head (finditer r s).

End Re.

(** ** [hashlib.md5] and [str.encode('utf-8')] *)

(** UTF-8 bytes of a code point (the text comes from decoded files and
    holds no surrogate). *)
Definition utf8_char (c : char) : list N :=
  if (c <? 128)%N then [c]
  else if (c <? 2048)%N then [192 + c / 64; 128 + c mod 64]%N
  else if (c <? 65536)%N then [224 + c / 4096; 128 + (c / 64) mod 64; 128 + c mod 64]%N
  else [240 + c / 262144; 128 + (c / 4096) mod 64; 128 + (c / 64) mod 64; 128 + c mod 64]%N.

Definition encode_utf8 (s : str) : list N := concat (map utf8_char s).

Module MD5.
Open Scope N_scope.

Definition mask32 (x : N) : N := x mod 4294967296.
Definition not32 (x : N) : N := N.lxor x 4294967295.
Definition rotl (x c : N) : N :=
  mask32 (N.lor (N.shiftl x c) (N.shiftr x (32 - c))).

Definition K : list N :=
  [3614090360; 3905402710; 606105819; 3250441966; 4118548399; 1200080426;
   2821735955; 4249261313; 1770035416; 2336552879; 4294925233; 2304563134;
   1804603682; 4254626195; 2792965006; 1236535329; 4129170786; 3225465664;
   643717713; 3921069994; 3593408605; 38016083; 3634488961; 3889429448;
   568446438; 3275163606; 4107603335; 1163531501; 2850285829; 4243563512;
   1735328473; 2368359562; 4294588738; 2272392833; 1839030562; 4259657740;
   2763975236; 1272893353; 4139469664; 3200236656; 681279174; 3936430074;
   3572445317; 76029189; 3654602809; 3873151461; 530742520; 3299628645;
   4096336452; 1126891415; 2878612391; 4237533241; 1700485571; 2399980690;
   4293915773; 2240044497; 1873313359; 4264355552; 2734768916; 1309151649;
   4149444226; 3174756917; 718787259; 3951481745].

Definition shifts : list N :=
  [7; 12; 17; 22; 7; 12; 17; 22; 7; 12; 17; 22; 7; 12; 17; 22;
   5; 9; 14; 20; 5; 9; 14; 20; 5; 9; 14; 20; 5; 9; 14; 20;
   4; 11; 16; 23; 4; 11; 16; 23; 4; 11; 16; 23; 4; 11; 16; 23;
   6; 10; 15; 21; 6; 10; 15; 21; 6; 10; 15; 21; 6; 10; 15; 21].

Definition le_bytes (n : nat) (x : N) : list N :=
  map (fun k => (x / 2 ^ (8 * N.of_nat k)) mod 256) (seq 0 n).

Fixpoint le_word (bs : list N) : N :=
  match bs with
  | [] => 0
  | b :: bs' => b + 256 * le_word bs'
  end.

(** The message, the byte 0x80, zeros up to 56 modulo 64, and the bit
    length on eight bytes. *)
Definition pad (msg : list N) : list N :=
  let n := length msg in
  let zeros := ((55 + 64 - n mod 64) mod 64)%nat in
  msg ++ 128 :: repeat 0 zeros ++ le_bytes 8 (8 * N.of_nat n).

Fixpoint chunks (fuel : nat) (k : nat) (bs : list N) : list (list N) :=
  match fuel, bs with
  | S fuel', _ :: _ => take k bs :: chunks fuel' k (drop k bs)
  | _, _ => []
  end.

Definition words (block : list N) : list N := map le_word (chunks 16 4 block).

Definition round (M : list N) (st : N * N * N * N) (i : nat) : N * N * N * N :=
  let '(A, B, C, D) := st in
  let '(F, g) :=
    if (i <? 16)%nat then (N.lor (N.land B C) (N.land (not32 B) D), i)
    else if (i <? 32)%nat then (N.lor (N.land D B) (N.land (not32 D) C), ((5 * i + 1) mod 16)%nat)
    else if (i <? 48)%nat then (N.lxor B (N.lxor C D), ((3 * i + 5) mod 16)%nat)
    else (N.lxor C (N.lor B (not32 D)), ((7 * i) mod 16)%nat) in
  let F' := mask32 (F + A + nth i K 0 + nth g M 0) in
  (D, mask32 (B + rotl F' (nth i shifts 0)), B, C).

Definition block_step (st : N * N * N * N) (block : list N) : N * N * N * N :=
  let '(a0, b0, c0, d0) := st in
  let '(A, B, C, D) := fold_left (round (words block)) (seq 0 64) st in
  (mask32 (a0 + A), mask32 (b0 + B), mask32 (c0 + C), mask32 (d0 + D)).

(** The sixteen bytes of the digest. *)
Definition digest (msg : list N) : list N :=
  let p := pad msg in
  let '(a, b, c, d) :=
    fold_left block_step (chunks (length p) 64 p)
      (1732584193, 4023233417, 2562383102, 271733878) in
  le_bytes 4 a ++ le_bytes 4 b ++ le_bytes 4 c ++ le_bytes 4 d.

Definition hex_digit (n : N) : char := if n <? 10 then 48 + n else 87 + n.

Definition hex (bs : list N) : str :=
  concat (map (fun b => [hex_digit (b / 16); hex_digit (b mod 16)]) bs).
End MD5.

(** [hashlib.md5(s.encode('utf-8')).hexdigest()] *)
Definition md5_hexdigest (s : str) : str := MD5.hex (MD5.digest (encode_utf8 s)).

(** ** models.py *)

Module SongMetadata.
Record t := Build {
  number : str;
  title : str;
  title2 : str;
  original_title : str;
  composer : str;
  author : str;
  key : str;
  format : str;
  copyright : str;
  reference : str;
  theme : str;
  tune_of : str;
  volume : str;
  supplement : str;
  f1 : str;
  link : str }.

(** Every field is stripped after initialization. *)
Definition __post_init__ (self : t) : t :=
  {| number := strip (number self);
     title := strip (title self);
     title2 := strip (title2 self);
     original_title := strip (original_title self);
     composer := strip (composer self);
     author := strip (author self);
     key := strip (key self);
     format := strip (format self);
     copyright := strip (copyright self);
     reference := strip (reference self);
     theme := strip (theme self);
     tune_of := strip (tune_of self);
     volume := strip (volume self);
     supplement := strip (supplement self);
     f1 := strip (f1 self);
     link := strip (link self) |}.
End SongMetadata.

Module ChordProSection.
Record t := Build {
  name : str;
  type : str;
  number : option str;
  content : list str;
  raw_content : str }.

(** The lines the hash is taken over: the content without the comment
    lines. *)
Definition content_lines (self : t) : list str :=
  List.filter (fun line => negb (startswith (strip line) (lit "{c:"))) (content self).

Definition get_content_hash (self : t) : str :=
  let content_str := join_lines (content_lines self) in
  md5_hexdigest content_str.
End ChordProSection.

Module ChordPosition.
Record t := Build {
  id : str;
  pos : Z;
  key : str }.
End ChordPosition.

(** The dictionary built by [ParsedLine.to_freeshow_line]. *)
Module FreeShowLine.
Record t := Build {
  align : str;
  text_value : str;
  text_style : str;
  chords : list ChordPosition.t }.
End FreeShowLine.

Module ParsedLine.
Record t := Build {
  text : str;
  chords : list ChordPosition.t }.

Definition to_freeshow_line (self : t) (font_size : N) : FreeShowLine.t :=
  {| FreeShowLine.align := [];
     FreeShowLine.text_value := text self;
     FreeShowLine.text_style := lit "font-size: " ++ str_of_N font_size ++ lit "px;";
     FreeShowLine.chords := chords self |}.
End ParsedLine.

(** ** config.py *)

Module ProcessorConfig.
Record t := Build {
  fix_french_punctuation : bool;
  deduplicate_sections : bool;
  section_colors : gmap str str;
  global_groups : gmap str str;
  (** iterated in insertion order by the section-type lookup *)
  label_to_type_map : list (str * str);
  slide_style : str;
  font_size : N }.

Definition default : t :=
  {| fix_french_punctuation := true;
     deduplicate_sections := true;
     section_colors := list_to_map
       [(lit "verse", lit ""); (lit "chorus", lit "#f525d2");
        (lit "bridge", lit "#f52598"); (lit "pre_chorus", lit "#25d2f5");
        (lit "tag", lit "#f5d225"); (lit "intro", lit ""); (lit "outro", lit "")];
     global_groups := list_to_map
       [(lit "verse", lit "verse"); (lit "chorus", lit "chorus");
        (lit "bridge", lit "bridge"); (lit "pre_chorus", lit "pre_chorus");
        (lit "tag", lit "tag"); (lit "intro", lit "intro"); (lit "outro", lit "outro")];
     label_to_type_map :=
       [(lit "refrain", lit "chorus"); (lit "chorus", lit "chorus");
        (lit "strophe", lit "verse"); (lit "verse", lit "verse");
        (lit "pont", lit "bridge"); (lit "bridge", lit "bridge");
        (lit "introduction", lit "intro"); (lit "intro", lit "intro");
        (lit "fin", lit "outro"); (lit "outro", lit "outro")];
     slide_style := lit "top:120px;left:50px;height:840px;width:1820px;";
     font_size := 100 |}.
End ProcessorConfig.

(** ** utils.py *)

Module FrenchPunctuationHandler.
Import Re.

Definition NBSP : char := 160.

(** The marks [;:!?] and the closing guillemet. *)
Definition is_double_punct (c : char) : bool :=
  (c =? 59)%N || (c =? 58)%N || (c =? 33)%N || (c =? 63)%N || (c =? 187)%N.

(** [\s*([;:!?»])] *)
Definition DOUBLE_PUNCT_PATTERN : regex :=
  Seq (Star isspace) (Group 1 (Cls is_double_punct)).

(** [(«)\s*] *)
Definition OPENING_GUILLEMETS_PATTERN : regex :=
  Seq (Group 1 (Cls (only 171))) (Star isspace).

Definition fix_french_punctuation (text : str) : str :=
  match text with
  | [] => text
  | _ =>
      let text := sub DOUBLE_PUNCT_PATTERN (fun m => NBSP :: group m 1) text in
      let text := sub OPENING_GUILLEMETS_PATTERN (fun m => group m 1 ++ [NBSP]) text in
      text
  end.
End FrenchPunctuationHandler.

(** [(\d{4})] *)
Definition YEAR_PATTERN : Re.regex :=
  Re.Group 1 (Re.Seq (Re.Cls isdecimal) (Re.Seq (Re.Cls isdecimal)
    (Re.Seq (Re.Cls isdecimal) (Re.Cls isdecimal)))).

Definition extract_year_from_copyright (copyright_text : str) : option str :=
  match Re.search YEAR_PATTERN copyright_text with
  | Some year_match => Some (Re.group year_match 1)
  | None => None
  end.

(** ** parsers.py *)

(** The dictionary returned by [_parse_section_info]. *)
Module SectionInfo.
Record t := Build {
  name : str;
  type : str;
  number : option str }.
End SectionInfo.

Module ChordProParser.
Import Re.

(** [\[([^\]]+)\]] *)
Definition chord_pattern : regex :=
  Seq (Cls (only 91)) (Seq (Group 1 (Plus (except 93))) (Cls (only 93))).

(** [^\d+\.\s*] *)
Definition LEADING_NUMBER_PATTERN : regex :=
  Seq Bol (Seq (Plus isdecimal) (Seq (Cls (only 46)) (Star isspace))).

(** The directive pattern: an opening brace, group 1 [[^:]+], an optional
    part made of a colon and group 2 [.*] , and a closing brace. *)
Definition DIRECTIVE_PATTERN : regex :=
  Seq (Cls (only 123)) (Seq (Group 1 (Plus (except 58)))
    (Seq (Opt (Seq (Cls (only 58)) (Group 2 (Star dot)))) (Cls (only 125)))).

(** The class [[a-zA-Zéèêàâùû\s]]. *)
Definition is_label_char (c : char) : bool :=
  is_ascii_letter c || (c =? 233)%N || (c =? 232)%N || (c =? 234)%N
  || (c =? 224)%N || (c =? 226)%N || (c =? 249)%N || (c =? 251)%N || isspace c.

(** [([a-zA-Zéèêàâùû\s]+)\s*(\d+|[a-zA-Z])$] *)
Definition LABEL_PATTERN : regex :=
  Seq (Group 1 (Plus is_label_char))
    (Seq (Star isspace) (Seq (Group 2 (Alt (Plus isdecimal) (Cls is_ascii_letter))) Eol)).

Section casing.
Context `{casing : Casing}.

(** The loop over [label_to_type_map.items()] with its [break]. *)
Fixpoint find_type (table : list (str * str)) (type_part : str) (section_type : str) : str :=
match table with
| [] => section_type
| (key, value) :: table' =>
    if contains type_part key then value else find_type table' type_part section_type
end.

Definition _parse_section_info (config : ProcessorConfig.t) (block_type : str)
  (label : option str) : SectionInfo.t :=
let section_name := title block_type in
let section_type := block_type in
let section_number := None in
match label with
| Some ((_ :: _) as label) =>
    let section_name := label in
    let label_lower := lower label in
    let m := rematch LABEL_PATTERN label_lower in
    let type_part := match m with Some m => strip (group m 1) | None => label_lower end in
    let section_number := match m with Some m => Some (group m 2) | None => None end in
    let section_type :=
      find_type (ProcessorConfig.label_to_type_map config) type_part section_type in
    SectionInfo.Build section_name section_type section_number
| _ => SectionInfo.Build section_name section_type section_number
end.

Definition _create_section (section_info : SectionInfo.t) (content : list str)
  : ChordProSection.t :=
{| ChordProSection.name := SectionInfo.name section_info;
   ChordProSection.type := SectionInfo.type section_info;
   ChordProSection.number := SectionInfo.number section_info;
   ChordProSection.content := content;
   ChordProSection.raw_content := join_lines content |}.

(** The local variables of the loop of [parse_file]. *)
Record parse_state := ParseState {
metadata : gmap str str;
sections : list ChordProSection.t;
current_section_label : option str;
current_section_content : list str;
current_section_info : option SectionInfo.t;
in_section : bool }.

Definition initial_state : parse_state :=
ParseState ∅ [] None [] None false.

(** The section under construction, when one is open. *)
Definition open_section (st : parse_state) : option ChordProSection.t :=
match current_section_info st with
| Some info =>
    if in_section st then Some (_create_section info (current_section_content st))
    else None
| None => None
end.

(** One iteration of the loop. *)
Definition parse_line (config : ProcessorConfig.t) (st : parse_state) (line : str)
  : parse_state :=
let stripped_line := strip line in
let append_if_open :=
  if in_section st then current_section_content st ++ [line]
  else current_section_content st in
if startswith stripped_line (lit "{c:") then
  ParseState (metadata st) (sections st)
    (Some (strip (slice_to_last 3 stripped_line)))
    append_if_open (current_section_info st) (in_section st)
else if startswith stripped_line (lit "{start_of_") then
  let sections' :=
    match open_section st with
    | Some sec => sections st ++ [sec]
    | None => sections st
    end in
  let block_type := strip (slice_to_last 10 stripped_line) in
  ParseState (metadata st) sections' None []
    (Some (_parse_section_info config block_type (current_section_label st))) true
else if startswith stripped_line (lit "{end_of_") then
  match open_section st with
  | Some sec =>
      ParseState (metadata st) (sections st ++ [sec])
        (current_section_label st) [] None false
  | None => st
  end
else if startswith stripped_line (lit "{") then
  let metadata' :=
    match rematch DIRECTIVE_PATTERN stripped_line with
    | Some directive_match =>
        let key := strip (group directive_match 1) in
        let value := strip (group directive_match 2) in
        <[key := value]> (metadata st)
    | None => metadata st
    end in
  ParseState metadata' (sections st) (current_section_label st)
    append_if_open (current_section_info st) (in_section st)
else
  ParseState (metadata st) (sections st) (current_section_label st)
    append_if_open (current_section_info st) (in_section st).

(** The state after the loop over [content.split('\n')]. *)
Definition parse_lines (config : ProcessorConfig.t) (lines : list str) : parse_state :=
fold_left (parse_line config) lines initial_state.

(** [parse_file], on the text read from the file. *)
Definition parse_file (config : ProcessorConfig.t) (content : str)
  : gmap str str * list ChordProSection.t :=
let st := parse_lines config (split_lines content) in
(metadata st, sections st).

End casing.

(** The position of the [i]-th chord in the text without the chords
    before it. *)
Definition adjusted_pos (chord_matches : list mobj) (i : nat) (original_pos : nat) : Z :=
  fold_left (fun adjusted prev_match =>
               (adjusted - Z.of_nat (length (lit "[" ++ group prev_match 1 ++ lit "]")))%Z)
    (take i chord_matches) (Z.of_nat original_pos).

Definition parse_chord_line (line : str) : ParsedLine.t :=
  let chord_matches := finditer chord_pattern line in
  let chords :=
    imap (fun i m =>
            let chord := group m 1 in
            let original_pos := m_start m in
            let chord_id :=
              take 5 (md5_hexdigest (chord ++ str_of_nat original_pos)) in
            ChordPosition.Build chord_id
              (Z.max 0 (adjusted_pos chord_matches i original_pos)) chord)
      chord_matches in
  let clean_text := sub chord_pattern (fun _ => []) line in
  let clean_text := sub LEADING_NUMBER_PATTERN (fun _ => []) clean_text in
  ParsedLine.Build clean_text chords.

(** One iteration of the loop of [deduplicate_sections]; the state is
    [unique_sections], [section_map] and [index_map]. *)
Definition dedup_step (st : list ChordProSection.t * gmap str nat * list nat)
    (section : ChordProSection.t) : list ChordProSection.t * gmap str nat * list nat :=
  let '(unique_sections, section_map, index_map) := st in
  let content_hash := ChordProSection.get_content_hash section in
  match section_map !! content_hash with
  | Some unique_index => (unique_sections, section_map, index_map ++ [unique_index])
  | None =>
      let unique_index := length unique_sections in
      (unique_sections ++ [section],
       <[content_hash := unique_index]> section_map,
       index_map ++ [unique_index])
  end.

Definition deduplicate_sections (sections : list ChordProSection.t)
    : list ChordProSection.t * list nat :=
  let '(unique_sections, _, index_map) := fold_left dedup_step sections ([], ∅, []) in
  (unique_sections, index_map).
End ChordProParser.

(** ** processor.py *)

(** The slide dictionary built by [_create_freeshow_slide]; its [settings]
    are empty, its [notes] are the empty text and it has one text item. *)
Module Slide.
Record t := Build {
  group : str;
  color : str;
  notes : str;
  item_lines : list FreeShowLine.t;
  item_style : str;
  globalGroup : option str }.
End Slide.

Module Layout.
Record t := Build {
  name : str;
  notes : str;
  (** the [id] of every entry of the list "slides" *)
  slides : list str }.
End Layout.

Module Meta.
Record t := Build {
  number : str;
  title : str;
  artist : str;
  author : str;
  composer : str;
  copyright : str;
  year : str;
  key : str }.
End Meta.

(** The second element of [freeshow_data]. *)
Module Show.
Record t := Build {
  name : str;
  origin : str;
  private : bool;
  category : str;
  activeLayout : str;
  template : str;
  created : Z;
  modified : Z;
  quickAccess_number : str;
  meta : Meta.t;
  slides : gmap str Slide.t;
  layouts : gmap str Layout.t }.
End Show.

Module ChordProProcessor.
Import ChordProParser.

(** The processor: its configuration and the metadata table loaded from
    the CSV file, keyed by the file names in lower case. *)
Record t := Build {
  config : ProcessorConfig.t;
  metadata : gmap str SongMetadata.t }.

Section casing.
Context `{casing : Casing}.

Definition punctuate (config : ProcessorConfig.t) (text : str) : str :=
if ProcessorConfig.fix_french_punctuation config
then FrenchPunctuationHandler.fix_french_punctuation text
else text.

(** A directive line [{key: value}]. *)
Definition directive (key value : str) : str :=
lit "{" ++ key ++ lit ": " ++ value ++ lit "}".

(** The metadata headers of [enhance_chordpro]. *)
Definition enhanced_headers (config : ProcessorConfig.t)
  (csv_metadata : option SongMetadata.t) : list str :=
match csv_metadata with
| Some csv_metadata =>
    [directive (lit "number") (SongMetadata.number csv_metadata)]
    ++ [directive (lit "title") (punctuate config (SongMetadata.title csv_metadata))]
    ++ match SongMetadata.author csv_metadata with
       | [] => []
       | author => [directive (lit "lyricist") (punctuate config author)]
       end
    ++ match SongMetadata.composer csv_metadata with
       | [] => []
       | composer => [directive (lit "composer") (punctuate config composer)]
       end
    ++ match SongMetadata.copyright csv_metadata with
       | [] => []
       | copyright_text =>
           [directive (lit "copyright") (punctuate config copyright_text)]
           ++ match extract_year_from_copyright copyright_text with
              | Some year => [directive (lit "year") year]
              | None => []
              end
       end
| None => []
end.

(** The lines of a section in the enhanced file. *)
Definition enhanced_section (config : ProcessorConfig.t) (section : ChordProSection.t)
  : list str :=
[lit "{start_of_" ++ ChordProSection.type section ++ lit "}"]
++ map (fun line =>
          if ProcessorConfig.fix_french_punctuation config
             && negb (startswith (strip line) (lit "{"))
          then FrenchPunctuationHandler.fix_french_punctuation line
          else line)
     (ChordProSection.content section)
++ [lit "{end_of_" ++ ChordProSection.type section ++ lit "}"; []].

(** [enhance_chordpro]: the text written to the enhanced file, from the
  stem of the file name and the text of the file. *)
Definition enhance_chordpro (self : t) (filename content : str) : str :=
let '(file_metadata, sections) := parse_file (config self) content in
let lookup_key := lower filename in
let csv_metadata := metadata self !! lookup_key in
let output_lines :=
  enhanced_headers (config self) csv_metadata
  ++ match file_metadata !! lit "key" with
     | Some key => [directive (lit "key") key]
     | None => []
     end
  ++ [[]]
  ++ flat_map (enhanced_section (config self)) sections in
join_lines output_lines.

Definition _create_freeshow_slide (config : ProcessorConfig.t)
  (section : ChordProSection.t) (slide_id : str) : Slide.t :=
let lines_data :=
  flat_map (fun line =>
              if startswith (strip line) (lit "{c:") then []
              else match strip line with
                   | [] => []
                   | _ :: _ =>
                       let parsed_line := parse_chord_line line in
                       let parsed_line :=
                         ParsedLine.Build
                           (punctuate config (ParsedLine.text parsed_line))
                           (ParsedLine.chords parsed_line) in
                       [ParsedLine.to_freeshow_line parsed_line
                          (ProcessorConfig.font_size config)]
                   end)
    (ChordProSection.content section) in
{| Slide.group := ChordProSection.name section;
   Slide.color :=
     default [] (ProcessorConfig.section_colors config !! ChordProSection.type section);
   Slide.notes := [];
   Slide.item_lines := lines_data;
   Slide.item_style := ProcessorConfig.slide_style config;
   Slide.globalGroup :=
     ProcessorConfig.global_groups config !! ChordProSection.type section |}.

(** The identifier of the slide of the [i]-th unique section. *)
Definition slide_id_of (i : nat) (section : ChordProSection.t) : str :=
take 11 (md5_hexdigest (ChordProSection.type section ++ str_of_nat i
                          ++ ChordProSection.raw_content section)).

(** One iteration of the loop over [enumerate(unique_sections)]; the state
  is [slides] and [unique_slide_ids]. *)
Definition slide_step (config : ProcessorConfig.t)
  (st : gmap str Slide.t * list str) (entry : nat * ChordProSection.t)
  : gmap str Slide.t * list str :=
let '(slides, unique_slide_ids) := st in
let '(i, section) := entry in
let slide_id := slide_id_of i section in
(<[slide_id := _create_freeshow_slide config section slide_id]> slides,
 unique_slide_ids ++ [slide_id]).

Definition build_slides (config : ProcessorConfig.t)
  (unique_sections : list ChordProSection.t) : gmap str Slide.t * list str :=
fold_left (slide_step config) (imap pair unique_sections) (∅, []).

(** The unique sections and the index map, by the configuration. *)
Definition unique_and_index (config : ProcessorConfig.t)
  (sections : list ChordProSection.t) : list ChordProSection.t * list nat :=
if ProcessorConfig.deduplicate_sections config
then deduplicate_sections sections
else (sections, seq 0 (length sections)).

Definition category_of (filename : str) : str :=
if startswith filename (lit "jem")
then (if contains (lower filename) (lit "jemk") then lit "JEM Kids" else lit "JEM")
else lit "song".

(** [freeshow_data] as built by [generate_freeshow_file] from the stem of
  the file name, the text of the file and the clock; [None] stands for
  the [IndexError] of [unique_slide_ids[i]]. *)
Definition generate_freeshow_file (self : t) (filename : str)
  (content : str) (current_time : Z) : option (str * Show.t) :=
let config := config self in
let '(file_metadata, sections) := parse_file config content in
let song_number := default [] (file_metadata !! lit "number") in
let title := default filename (file_metadata !! lit "title") in
let title := punctuate config title in
let show_id := take 11 (md5_hexdigest filename) in
let '(unique_sections, index_map) := unique_and_index config sections in
let '(slides, unique_slide_ids) := build_slides config unique_sections in
let layout_id := take 11 (md5_hexdigest (lit "layout" ++ filename)) in
layout_slides ← mapM (fun i => unique_slide_ids !! i) index_map;
let author := punctuate config (default [] (file_metadata !! lit "lyricist")) in
let composer := punctuate config (default [] (file_metadata !! lit "composer")) in
let copyright_text := punctuate config (default [] (file_metadata !! lit "copyright")) in
Some (show_id,
      {| Show.name := title;
         Show.origin := lit "jemaf";
         Show.private := false;
         Show.category := category_of filename;
         Show.activeLayout := layout_id;
         Show.template := lit "default";
         Show.created := current_time;
         Show.modified := current_time;
         Show.quickAccess_number := song_number;
         Show.meta :=
           {| Meta.number := song_number;
              Meta.title := title;
              Meta.artist := author;
              Meta.author := author;
              Meta.composer := composer;
              Meta.copyright := copyright_text;
              Meta.year := default [] (file_metadata !! lit "year");
              Meta.key := default [] (file_metadata !! lit "key") |};
         Show.slides := slides;
         Show.layouts :=
           {[ layout_id := Layout.Build (lit "Default") (lit "1 voix") layout_slides ]} |}).

(** main.py, [process_single_file]: the show is generated from the
  enhanced file, whose name is the one of the file with the suffix
  [-enhanced]. *)
Definition process_single_file (self : t) (filename content : str) (current_time : Z)
  : option (str * Show.t) :=
let enhanced := enhance_chordpro self filename content in
generate_freeshow_file self (filename ++ lit "-enhanced") enhanced current_time.

End casing.
End ChordProProcessor.

(** ** Notions of the specification *)

(** The text without its characters at the positions [b] to [e - 1]. *)
Definition delete_span (b e : nat) (s : str) : str := take b s ++ drop e s.

(** The bracket notation of a chord symbol. *)
Definition bracket (symbol : str) : str := lit "[" ++ symbol ++ lit "]".

Definition bracket_length (m : Re.mobj) : nat := length (bracket (Re.group m 1)).

(** A text with the bracket notation of the given chord marks cut out, from
    the last mark to the first; the text starts at position [base] of the
    line the marks were found in. *)
Definition remove_brackets (base : nat) (marks : list Re.mobj) (s : str) : str :=
  fold_right
    (fun m acc =>
       delete_span (Re.m_start m - base) (Re.m_start m - base + bracket_length m) acc)
    s marks.

(** The characters of a chord symbol: any but the closing bracket. *)
Definition in_symbol (c : char) : bool := negb (c =? 93)%N.

(** The chord symbol of the bracket notation that opens at the head of a
    text: the characters between the opening bracket and the first closing
    bracket behind it, at least one. *)
Definition symbol_at (s : str) : option str :=
  match s with
  | c :: s' =>
      if (c =? 91)%N then
        match take_while in_symbol s', drop_while in_symbol s' with
        | (_ :: _) as symbol, _ :: _ => Some symbol
        | _, _ => None
        end
      else None
  | [] => None
  end.

(** The chord marks of a line from left to right, each with its position
    and its symbol; a mark is looked for behind the one before.  [skip]
    counts the characters of the last mark that are still to be passed and
    [i] is the position of the head of [s] in the line. *)
Fixpoint chord_marks_from (skip i : nat) (s : str) : list (nat * str) :=
  match s with
  | [] => []
  | _ :: s' =>
      match skip with
      | S n => chord_marks_from n (S i) s'
      | O =>
          match symbol_at s with
          | Some symbol => (i, symbol) :: chord_marks_from (S (length symbol)) (S i) s'
          | None => chord_marks_from 0 (S i) s'
          end
      end
  end.

Definition chord_marks (line : str) : list (nat * str) := chord_marks_from 0 0 line.

(** The characters of a line that belong to none of its chord marks. *)
Fixpoint strip_marks (skip : nat) (s : str) : str :=
  match s with
  | [] => []
  | c :: s' =>
      match skip with
      | S n => strip_marks n s'
      | O =>
          match symbol_at s with
          | Some symbol => strip_marks (S (length symbol)) s'
          | None => c :: strip_marks 0 s'
          end
      end
  end.

(** The line with every bracket-notation substring removed. *)
Definition without_chords (line : str) : str := strip_marks 0 line.

(** The bracket notation of [symbol] stands at position [i] of the line. *)
Definition mark_at (line : str) (i : nat) (symbol : str) : Prop :=
  symbol <> [] /\ (93%N ∉ symbol)
  /\ take (length (bracket symbol)) (drop i line) = bracket symbol.

(** A text with the bracket notation of the given marks cut out, from the
    last mark to the first. *)
Definition delete_marks (marks : list (nat * str)) (s : str) : str :=
  fold_right
    (fun mark acc => delete_span mark.1 (mark.1 + length (bracket mark.2)) acc)
    s marks.

(** The position and the symbol of a match of the chord pattern. *)
Definition mark_of (m : Re.mobj) : nat * str := (Re.m_start m, Re.group m 1).

(** The length of a leading numeric-list marker: digits, a full stop and
    the white space behind it; 0 when the text starts on no marker. *)
Definition leading_marker_length (s : str) : nat :=
  match take_while isdecimal s, drop_while isdecimal s with
  | (_ :: _) as digits, c :: rest =>
      if (c =? 46)%N
      then length digits + 1 + length (take_while isspace rest)
      else 0
  | _, _ => 0
  end.

(** The text before the [k]-th chord mark of a line, without the bracket
    notation of the marks before it. *)
Definition text_before_chord (line : str) (k : nat) (m : Re.mobj) : str :=
  remove_brackets 0 (take k (Re.finditer ChordProParser.chord_pattern line))
    (take (Re.m_start m) line).

(** ** Auxiliary notions of the proofs *)

(** A text that starts neither on white space nor on a punctuation mark. *)
Definition plain_head (x : str) : Prop :=
  match x with
  | [] => True
  | c :: _ => isspace c = false /\ FrenchPunctuationHandler.is_double_punct c = false
  end.

(** The matches of a scan. *)
Definition hits (ts : list Re.token) : list Re.mobj :=
  omap (fun t => match t with Re.Hit m => Some m | Re.Lit _ => None end) ts.

(** The scans of the chord pattern: a chord mark in bracket notation is one
    match, any other character is passed over. *)
Inductive chord_scan : nat -> str -> list Re.token -> Prop :=
| chord_scan_nil i : chord_scan i [] []
| chord_scan_hit i symbol rest ts :
    chord_scan (i + length (bracket symbol)) rest ts ->
    chord_scan i (bracket symbol ++ rest)
      (Re.Hit (Re.MObj i (i + length (bracket symbol)) (bracket symbol) [(1, symbol)]) :: ts)
| chord_scan_lit i c s ts :
    chord_scan (S i) s ts -> chord_scan i (c :: s) (Re.Lit c :: ts).

(** Chord marks in the order of the line, none before position [i] and
    none overlapping the one before it. *)
Fixpoint spaced (i : nat) (marks : list Re.mobj) : Prop :=
  match marks with
  | [] => True
  | m :: marks' => i <= Re.m_start m /\ spaced (Re.m_start m + bracket_length m) marks'
  end.

(** The cumulated length of the bracket notation of chord marks. *)
Definition brackets_length (marks : list Re.mobj) : nat :=
  sum_list_with bracket_length marks.

Arguments bracket : simpl never.
Arguments bracket_length : simpl never.
Arguments brackets_length : simpl never.

(** The groups of a match and the tokens of a scan whose characters all
    have a property. *)
Definition groups_ok (φ : char -> Prop) (g : Re.groups) : Prop :=
  Forall (fun nv => Forall φ nv.2) g.

Definition token_ok (φ : char -> Prop) (t : Re.token) : Prop :=
  match t with
  | Re.Lit c => φ c
  | Re.Hit m => groups_ok φ (Re.m_groups m)
  end.

(** A text of one line. *)
Definition newline_free (s : str) : Prop := Forall (fun c => c <> 10%N) s.

(** The keys of the directives that [enhance_chordpro] writes. *)
Definition header_keys : list str :=
  [lit "number"; lit "title"; lit "lyricist"; lit "composer"; lit "copyright";
   lit "year"; lit "key"].

(** The keys and values of the directives that [enhance_chordpro] writes
    before the sections, for a record of the metadata table and the key of
    the file, when there are any. *)
Definition header_pairs (config : ProcessorConfig.t)
    (csv_metadata : option SongMetadata.t) (key : option str) : list (str * str) :=
  match csv_metadata with
  | Some csv_metadata =>
      [(lit "number", SongMetadata.number csv_metadata);
       (lit "title", ChordProProcessor.punctuate config (SongMetadata.title csv_metadata))]
      ++ match SongMetadata.author csv_metadata with
         | [] => []
         | author => [(lit "lyricist", ChordProProcessor.punctuate config author)]
         end
      ++ match SongMetadata.composer csv_metadata with
         | [] => []
         | composer => [(lit "composer", ChordProProcessor.punctuate config composer)]
         end
      ++ match SongMetadata.copyright csv_metadata with
         | [] => []
         | copyright_text =>
             [(lit "copyright", ChordProProcessor.punctuate config copyright_text)]
             ++ match extract_year_from_copyright copyright_text with
                | Some year => [(lit "year", year)]
                | None => []
                end
         end
  | None => []
  end
  ++ match key with
     | Some key => [(lit "key", key)]
     | None => []
     end.

(** The record of the metadata table has one-line fields where
    [enhance_chordpro] reads it. *)
Definition one_line_record (csv_metadata : SongMetadata.t) : Prop :=
  newline_free (SongMetadata.number csv_metadata)
  /\ newline_free (SongMetadata.title csv_metadata)
  /\ newline_free (SongMetadata.author csv_metadata)
  /\ newline_free (SongMetadata.composer csv_metadata)
  /\ newline_free (SongMetadata.copyright csv_metadata).


(** The invariant of the loop of [deduplicate_sections] after the sections
    [done] have been processed: the index map has one entry per section;
    [section_map] sends the hash of every unique section to its index and
    holds nothing else; the entry of a section is the index recorded for its
    hash; and every unique section is the first processed section with its
    hash, recorded at that place. *)
Definition dedup_inv (done : list ChordProSection.t)
    (st : list ChordProSection.t * gmap str nat * list nat) : Prop :=
  let '(unique_sections, section_map, index_map) := st in
  length index_map = length done
  /\ (forall h j, section_map !! h = Some j <->
        exists s, unique_sections !! j = Some s /\ ChordProSection.get_content_hash s = h)
  /\ (forall i s, done !! i = Some s ->
        exists j, section_map !! ChordProSection.get_content_hash s = Some j
                  /\ index_map !! i = Some j)
  /\ (forall j s, unique_sections !! j = Some s ->
        exists i, done !! i = Some s /\ index_map !! i = Some j
                  /\ forall i' s', i' < i -> done !! i' = Some s' ->
                       ChordProSection.get_content_hash s'
                       <> ChordProSection.get_content_hash s).

(** The text a label is looked up with: the phrase before the trailing
    ordinal when the label splits, the whole label otherwise, in lower
    case. *)
Definition lookup_text `{casing : Casing} (label : str) : str :=
  match Re.rematch ChordProParser.LABEL_PATTERN (lower label) with
  | Some m => strip (Re.group m 1)
  | None => lower label
  end.

(** The block directives of a document. *)
Definition is_start_of (line : str) : bool := startswith (strip line) (lit "{start_of_").
Definition is_end_of (line : str) : bool := startswith (strip line) (lit "{end_of_").



(** The identifiers of the slides of the unique sections, from index [k]
    on. *)
Definition slide_ids_from (k : nat) (unique_sections : list ChordProSection.t) : list str :=
  imap (fun i section => ChordProProcessor.slide_id_of (k + i) section) unique_sections.

(** ** Documents of the examples *)


(** A verse, a chorus and the verse again. *)
Definition repeated_verse : str :=
  join_lines [lit "{title: Chant}";
              lit "{start_of_verse}"; lit "[C]La la"; lit "{end_of_verse}";
              lit "{start_of_chorus}"; lit "Oh [G]oh"; lit "{end_of_chorus}";
              lit "{start_of_verse}"; lit "[C]La la"; lit "{end_of_verse}"].

(** A key and no section. *)
Definition only_key : str := join_lines [lit "{key: G}"; lit "La la"].



Definition song_record : SongMetadata.t :=
  SongMetadata.Build (lit "jem001") (lit "Gloire : joie !") [] [] (lit "Anne Compositrice")
    (lit "Jean Auteur") (lit "D") [] (lit "Copyright 1995-2023 Maison") [] [] [] [] [] [] [].

Definition table_processor : ChordProProcessor.t :=
  ChordProProcessor.Build ProcessorConfig.default {[ lit "jem001" := song_record ]}.

(** Four decimal digits stand at position [k] of a text. *)
Definition four_digits_at (s : str) (k : nat) : bool :=
  match drop k s with
  | c1 :: c2 :: c3 :: c4 :: _ => isdecimal c1 && isdecimal c2 && isdecimal c3 && isdecimal c4
  | _ => false
  end.

(** ** Tactics *)

(** Texts of code points below 256, by computation. *)
Ltac latin1_text := apply (bool_decide_unpack _); vm_compute; exact I.

(** Lookups in a map built by insertions under keys given as literals. *)
Ltac map_lookup :=
  repeat first
    [ rewrite lookup_insert_eq
    | rewrite lookup_insert_ne by discriminate
    | rewrite lookup_empty ].

(** * Verification *)

Import Re.

Section span_facts.
Context {A : Type} (p : A -> bool).

Lemma take_drop_while (l : list A) : take_while p l ++ drop_while p l = l.
Proof. induction l as [|x l IH]; simpl; [done|]. destruct (p x); simpl; congruence. Qed.

Lemma Forall_take_while (l : list A) : Forall (fun x => p x = true) (take_while p l).
Proof.
  induction l as [|x l IH]; simpl; [constructor|].
  destruct (p x) eqn:E; constructor; auto.
Qed.

Lemma stops_drop_while (l : list A) : stops p (drop_while p l).
Proof. induction l as [|x l IH]; simpl; [done|]. destruct (p x) eqn:E; simpl; auto. Qed.

Lemma take_while_app (w l : list A) :
  Forall (fun x => p x = true) w -> stops p l -> take_while p (w ++ l) = w.
Proof.
  intros Hw Hl. induction Hw as [|x w Hx _ IH]; simpl.
  - destruct l as [|y l]; simpl in *; [done|]. by rewrite Hl.
  - by rewrite Hx, IH.
Qed.

Lemma drop_while_app (w l : list A) :
  Forall (fun x => p x = true) w -> stops p l -> drop_while p (w ++ l) = l.
Proof.
  intros Hw Hl. induction Hw as [|x w Hx _ IH]; simpl.
  - destruct l as [|y l]; simpl in *; [done|]. by rewrite Hl.
  - by rewrite Hx.
Qed.

Lemma run_split (l : list A) :
  exists w x, l = w ++ x /\ Forall (fun x => p x = true) w /\ stops p x.
Proof.
  exists (take_while p l), (drop_while p l).
  auto using take_drop_while, Forall_take_while, stops_drop_while.
Qed.

Lemma drop_length_take_while (l : list A) :
  drop (length (take_while p l)) l = drop_while p l.
Proof.
  rewrite <- (take_drop_while l) at 2. by rewrite drop_app_length.
Qed.

Lemma length_take_while_le (l : list A) : length (take_while p l) <= length l.
Proof.
  rewrite <- (take_drop_while l) at 2. rewrite length_app. lia.
Qed.
End span_facts.

(** ** The matcher *)

Section star_facts.
Context {R : Type} (p : char -> bool).

(** When the continuation cannot start on a character of the class, only
    the longest run is left. *)
Lemma star_cls_backoff (k : nat -> str -> option R) i s :
  (forall j c u, p c = true -> k j (c :: u) = None) ->
  star_cls p i s k = k (i + length (take_while p s)) (drop_while p s).
Proof.
  intros Hk. revert i. induction s as [|c s IH]; intros i; simpl.
  - by rewrite Nat.add_0_r.
  - destruct (p c) eqn:E; simpl.
    + rewrite IH. rewrite Nat.add_succ_r. simpl.
      destruct (k (S (i + _)) _) eqn:E2; [done|]. by apply Hk.
    + by rewrite Nat.add_0_r.
Qed.

(** When the continuation accepts behind the longest run, that run is
    taken. *)
Lemma star_cls_longest (k : nat -> str -> option R) i s :
  is_Some (k (i + length (take_while p s)) (drop_while p s)) ->
  star_cls p i s k = k (i + length (take_while p s)) (drop_while p s).
Proof.
  revert i. induction s as [|c s IH]; intros i; simpl.
  - by rewrite Nat.add_0_r.
  - destruct (p c) eqn:E; simpl.
    + rewrite Nat.add_succ_r. intros Hs. rewrite IH by done.
      simpl. by destruct Hs as [x ->].
    + by rewrite Nat.add_0_r.
Qed.
End star_facts.

(** ** The search loop *)

Lemma scan_skip r n i s :
  n <= length s -> scan r n i s = scan r 0 (i + n) (drop n s).
Proof.
  revert n i. induction s as [|c s IH]; intros n i Hn; simpl in *.
  - assert (n = 0) as -> by lia. by rewrite Nat.add_0_r.
  - destruct n as [|n].
    + by rewrite Nat.add_0_r.
    + rewrite IH by lia. simpl. by rewrite Nat.add_succ_r.
Qed.

Lemma scan_hit r i s m n :
  match_at r i s = Some m -> m_end m - i = S n -> S n <= length s ->
  scan r 0 i s = Hit m :: scan r 0 (i + S n) (drop (S n) s).
Proof.
  intros Hm Hn Hl. destruct s as [|c s]; simpl in *; [lia|].
  rewrite Hm, Hn. rewrite scan_skip by lia. by rewrite Nat.add_succ_r.
Qed.

Lemma scan_miss r i c s :
  match_at r i (c :: s) = None -> scan r 0 i (c :: s) = Lit c :: scan r 0 (S i) s.
Proof. intros Hm. simpl. by rewrite Hm. Qed.

Lemma render_cons_lit repl c ts : render repl (Lit c :: ts) = c :: render repl ts.
Proof. done. Qed.

Lemma render_cons_hit repl m ts : render repl (Hit m :: ts) = repl m ++ render repl ts.
Proof. done. Qed.

Section french_punctuation.
Import FrenchPunctuationHandler.

Local Abbreviation space := (fun c : char => isspace c = true).
Local Abbreviation dp i s :=
  (render (fun m => NBSP :: group m 1) (scan DOUBLE_PUNCT_PATTERN 0 i s)).
Local Abbreviation gp i s :=
  (render (fun m => group m 1 ++ [NBSP]) (scan OPENING_GUILLEMETS_PATTERN 0 i s)).

Lemma punct_not_space c : is_double_punct c = true -> isspace c = false.
Proof.
  unfold is_double_punct. rewrite !orb_true_iff, !N.eqb_eq.
  intros [[[[->| ->]| ->]| ->]| ->]; reflexivity.
Qed.

Lemma punct_not_guillemet c : is_double_punct c = true -> (c =? 171)%N = false.
Proof.
  unfold is_double_punct. rewrite !orb_true_iff, !N.eqb_eq.
  intros [[[[->| ->]| ->]| ->]| ->]; reflexivity.
Qed.

Lemma space_not_guillemet c : isspace c = true -> (c =? 171)%N = false.
Proof.
  intros Hc. destruct (N.eqb_spec c 171) as [->|]; [|done]. discriminate Hc.
Qed.

(** The match of [\s*([;:!?»])] at a position: the run of white space
    from there on has to end on a mark. *)
Lemma match_at_double_punct i s :
  match_at DOUBLE_PUNCT_PATTERN i s =
  match drop_while isspace s with
  | m :: _ =>
      if is_double_punct m
      then Some (MObj i (S (i + length (take_while isspace s)))
                   (take (S (length (take_while isspace s))) s) [(1, [m])])
      else None
  | [] => None
  end.
Proof.
  unfold match_at, DOUBLE_PUNCT_PATTERN. simpl rmatch.
  rewrite star_cls_backoff.
  - destruct (drop_while isspace s) as [|m t]; [done|].
    destruct (is_double_punct m); [|done].
    do 2 f_equal; [f_equal; lia|].
    replace (S (i + length (take_while isspace s)) - (i + length (take_while isspace s)))
      with 1 by lia.
    done.
  - intros j c u Hc. destruct (is_double_punct c) eqn:E; [|done].
    apply punct_not_space in E. congruence.
Qed.

Lemma dp_nil i : dp i [] = [].
Proof. done. Qed.

Lemma dp_mark i w m r :
  Forall space w -> is_double_punct m = true ->
  dp i (w ++ m :: r) = NBSP :: m :: dp (i + S (length w)) r.
Proof.
  intros Hw Hm.
  assert (stops isspace (m :: r)) as Hs by (by apply punct_not_space).
  pose proof (match_at_double_punct i (w ++ m :: r)) as Hmatch.
  rewrite drop_while_app, take_while_app, Hm in Hmatch by done.
  rewrite (scan_hit _ _ _ _ (length w) Hmatch)
    by (simpl; rewrite ?length_app; simpl; lia).
  rewrite render_cons_hit, cons_middle, app_assoc.
  rewrite drop_app_length' by (rewrite length_app; simpl; lia).
  done.
Qed.

Lemma dp_plain i c s :
  isspace c = false -> is_double_punct c = false ->
  dp i (c :: s) = c :: dp (S i) s.
Proof.
  intros Hc Hm. rewrite scan_miss; [done|].
  rewrite match_at_double_punct. simpl. by rewrite Hc, Hm.
Qed.


Lemma dp_spaces i w x :
  Forall space w -> plain_head x ->
  dp i (w ++ x) = w ++ dp (i + length w) x.
Proof.
  intros Hw Hx. revert i. induction Hw as [|a w Ha Hw IH]; intros i; cbn [app length].
  - by rewrite Nat.add_0_r.
  - rewrite scan_miss.
    + rewrite render_cons_lit, IH. by rewrite Nat.add_succ_r.
    + rewrite match_at_double_punct.
      assert (stops isspace x) as Hs by (destruct x; simpl in *; tauto).
      rewrite app_comm_cons.
      rewrite (drop_while_app isspace (a :: w) x) by (done || by constructor).
      destruct x as [|c x]; [done|]. simpl in Hx. by rewrite (proj2 Hx).
Qed.

(** The match of [(«)\s*] at a position. *)
Lemma match_at_guillemet i s :
  match_at OPENING_GUILLEMETS_PATTERN i s =
  match s with
  | c :: s' =>
      if (c =? 171)%N
      then Some (MObj i (S i + length (take_while isspace s'))
                   (take (S (length (take_while isspace s'))) s) [(1, [c])])
      else None
  | [] => None
  end.
Proof.
  unfold match_at, OPENING_GUILLEMETS_PATTERN. simpl rmatch.
  destruct s as [|c s']; [done|]. unfold only.
  destruct (c =? 171)%N; [|done].
  rewrite star_cls_longest by done.
  do 2 f_equal; [f_equal; lia|].
  replace (S i - i) with 1 by lia. done.
Qed.

Lemma gp_nil i : gp i [] = [].
Proof. done. Qed.

Lemma gp_guillemet i w x :
  Forall space w -> stops isspace x ->
  gp i (171%N :: w ++ x) = 171%N :: NBSP :: gp (i + S (length w)) x.
Proof.
  intros Hw Hx.
  pose proof (match_at_guillemet i (171%N :: w ++ x)) as Hmatch.
  simpl in Hmatch. rewrite take_while_app in Hmatch by done.
  rewrite (scan_hit _ _ _ _ (length w) Hmatch)
    by (simpl; rewrite ?length_app; simpl; lia).
  rewrite render_cons_hit. simpl drop. rewrite drop_app_length. done.
Qed.

Lemma gp_other i c s :
  (c =? 171)%N = false -> gp i (c :: s) = c :: gp (S i) s.
Proof.
  intros Hc. rewrite scan_miss; [done|].
  rewrite match_at_guillemet. by rewrite Hc.
Qed.

Lemma gp_others i w x :
  Forall (fun c => (c =? 171)%N = false) w ->
  gp i (w ++ x) = w ++ gp (i + length w) x.
Proof.
  intros Hw. revert i. induction Hw as [|a w Ha Hw IH]; intros i; cbn [app length].
  - by rewrite Nat.add_0_r.
  - rewrite gp_other by done. rewrite IH. by rewrite Nat.add_succ_r.
Qed.

Lemma gp_spaces i w x :
  Forall space w -> gp i (w ++ x) = w ++ gp (i + length w) x.
Proof.
  intros Hw. apply gp_others. eapply Forall_impl; [exact Hw|].
  intros c Hc. by apply space_not_guillemet.
Qed.

Lemma dp_nbsp_mark i m x :
  is_double_punct m = true -> dp i (NBSP :: m :: x) = NBSP :: m :: dp (i + 2) x.
Proof. intros Hm. apply (dp_mark i [NBSP] m x); [by repeat constructor|done]. Qed.

Lemma dp_nbsp_plain i x :
  plain_head x -> dp i (NBSP :: x) = NBSP :: dp (i + 1) x.
Proof. intros Hx. apply (dp_spaces i [NBSP] x); [by repeat constructor|done]. Qed.

Lemma gp_guillemet_nbsp i x :
  stops isspace x -> gp i (171%N :: NBSP :: x) = 171%N :: NBSP :: gp (i + 2) x.
Proof. intros Hx. apply (gp_guillemet i [NBSP] x); [by repeat constructor|done]. Qed.

(** Both passes keep the first character of a text that starts neither
    on white space nor on a mark. *)
Lemma passes_head j j' c r :
  isspace c = false -> is_double_punct c = false ->
  exists y, gp j (dp j' (c :: r)) = c :: y.
Proof.
  intros Hc Hm. rewrite dp_plain by done.
  destruct (N.eqb_spec c 171) as [->|Hne].
  - rewrite <- (take_drop_while isspace (dp (S j') r)).
    rewrite gp_guillemet by auto using Forall_take_while, stops_drop_while.
    eauto.
  - rewrite gp_other by (by apply N.eqb_neq). eauto.
Qed.

(** The text the two passes produce is left as it is by either pass. *)
Lemma passes_steady n : forall s, length s < n -> forall i j j',
  dp i (gp j (dp j' s)) = gp j (dp j' s) /\ gp i (gp j (dp j' s)) = gp j (dp j' s).
Proof.
  induction n as [|n IH]; intros s Hn i j j'; [lia|].
  assert (forall s', length s' < n -> forall i j j',
             dp i (gp j (dp j' s')) = gp j (dp j' s')) as IHd
    by (intros; by apply IH).
  assert (forall s', length s' < n -> forall i j j',
             gp i (gp j (dp j' s')) = gp j (dp j' s')) as IHg
    by (intros; by apply IH).
  clear IH.
  destruct (run_split isspace s) as (w & [|c r] & -> & Hw & Hx).
  { (* white space only *)
    rewrite (dp_spaces j' w []), dp_nil, (gp_spaces j w []), gp_nil by done.
    rewrite (dp_spaces i w []), dp_nil, (gp_spaces i w []), gp_nil by done.
    done. }
  simpl in Hx. rewrite length_app in Hn. simpl in Hn.
  destruct (is_double_punct c) eqn:Hm.
  { (* the white space ends on a mark *)
    rewrite (dp_mark j' w c r) by done.
    rewrite (gp_other j NBSP), (gp_other (S j) c) by (done || by apply punct_not_guillemet).
    rewrite dp_nbsp_mark by done.
    rewrite (gp_other i NBSP), (gp_other (S i) c) by (done || by apply punct_not_guillemet).
    rewrite IHd, IHg by lia. done. }
  rewrite (dp_spaces j' w (c :: r)), (dp_plain _ c r) by done.
  rewrite (gp_spaces j w) by done.
  destruct (N.eqb_spec c 171) as [->|Hne].
  2: { (* an ordinary character *)
    apply N.eqb_neq in Hne.
    rewrite (gp_other _ c) by done.
    rewrite (dp_spaces i w), (dp_plain _ c), (gp_spaces i w), (gp_other _ c) by done.
    rewrite IHd, IHg by lia. done. }
  (* an opening guillemet *)
  destruct (run_split isspace r) as (w' & [|c' r'] & -> & Hw' & Hx').
  { rewrite (dp_spaces _ w' []), dp_nil by done.
    rewrite (gp_guillemet _ w' []), gp_nil by done.
    rewrite (dp_spaces i w), (dp_plain _ 171%N), (dp_nbsp_plain _ []), dp_nil by done.
    rewrite (gp_spaces i w), (gp_guillemet_nbsp _ []), gp_nil by done.
    done. }
  simpl in Hx'. rewrite length_app in Hn. simpl in Hn.
  destruct (is_double_punct c') eqn:Hm'.
  { rewrite (dp_mark _ w' c' r') by done.
    rewrite gp_guillemet_nbsp by (by apply punct_not_space).
    rewrite (gp_other _ c') by (by apply punct_not_guillemet).
    rewrite (dp_spaces i w), (dp_plain _ 171%N), dp_nbsp_mark by done.
    rewrite (gp_spaces i w), gp_guillemet_nbsp by (done || by apply punct_not_space).
    rewrite (gp_other _ c') by (by apply punct_not_guillemet).
    rewrite IHd, IHg by lia. done. }
  rewrite (dp_spaces _ w' (c' :: r')) by done.
  destruct (passes_head 0 0 c' r' Hx' Hm') as [y0 _].
  assert (forall a b, exists y, gp a (dp b (c' :: r')) = c' :: y) as Hhead
    by (intros; by apply passes_head).
  assert (forall b, exists y, dp b (c' :: r') = c' :: y) as Hhead'
    by (intros; rewrite dp_plain by done; eauto).
  destruct (Hhead' (S (j' + length w) + length w')) as [y1 Ey1].
  rewrite (gp_guillemet _ w') by (done || by rewrite Ey1).
  destruct (Hhead (j + length w + S (length w')) (S (j' + length w) + length w'))
    as [y2 Ey2].
  rewrite (dp_spaces i w), (dp_plain _ 171%N) by (done || by rewrite Ey2).
  rewrite dp_nbsp_plain by (by rewrite Ey2).
  rewrite (gp_spaces i w), gp_guillemet_nbsp by (done || by rewrite Ey2).
  rewrite IHd, IHg by (simpl; lia). done.
Qed.

(** The function is the composition of its two passes on every text. *)
Lemma fix_french_punctuation_passes x :
  fix_french_punctuation x = gp 0 (dp 0 x).
Proof. by destruct x. Qed.

Lemma fix_french_punctuation_steady x :
  fix_french_punctuation (fix_french_punctuation x) = fix_french_punctuation x.
Proof.
  rewrite !fix_french_punctuation_passes.
  destruct (passes_steady (S (length x)) x (Nat.lt_succ_diag_r _) 0 0 0) as [-> ->].
  done.
Qed.

End french_punctuation.

Section span_more.
Context {A : Type} (p : A -> bool).
Lemma take_length_take_while (l : list A) :
  take (length (take_while p l)) l = take_while p l.
Proof.
  rewrite <- (take_drop_while p l) at 2. by rewrite take_app_length.
Qed.
End span_more.

Section chords.
Import ChordProParser.

Local Abbreviation in_chord := (except 93).

Lemma stops_in_chord c u : stops in_chord (c :: u) -> c = 93%N.
Proof.
  simpl. unfold except. intros H. apply negb_false_iff in H. by apply N.eqb_eq.
Qed.

(** The match of the chord pattern at a position: an opening bracket, a
    run of at least one character other than the closing bracket, and the
    closing bracket. *)
Lemma match_at_chord i s :
  match_at chord_pattern i s =
  match s with
  | c :: t =>
      if (c =? 91)%N then
        match take_while in_chord t, drop_while in_chord t with
        | (_ :: _) as sym, _ :: _ =>
            Some (MObj i (i + (2 + length sym)) (take (2 + length sym) s) [(1, sym)])
        | _, _ => None
        end
      else None
  | [] => None
  end.
Proof.
  unfold match_at, chord_pattern, Plus. simpl rmatch.
  destruct s as [|c t]; [done|]. unfold only at 1.
  destruct (c =? 91)%N; [|done].
  destruct t as [|c1 t1]; [done|]. simpl take_while. simpl drop_while.
  destruct (in_chord c1) eqn:E1; [|done].
  rewrite star_cls_backoff.
  - pose proof (stops_drop_while in_chord t1) as Hstop.
    destruct (drop_while in_chord t1) as [|d u]; [done|].
    apply stops_in_chord in Hstop. subst d. simpl.
    replace (S (S (S (i + length (take_while in_chord t1)))) - i)
      with (S (S (S (length (take_while in_chord t1))))) by lia.
    replace (S (i + length (take_while in_chord t1)) - i)
      with (S (length (take_while in_chord t1))) by lia.
    simpl. rewrite take_length_take_while.
    do 2 f_equal. lia.
  - intros j c0 u Hc. unfold only. unfold except in Hc.
    apply negb_true_iff in Hc. by rewrite Hc.
Qed.

Lemma bracket_cons symbol : bracket symbol = 91%N :: symbol ++ [93%N].
Proof. done. Qed.

Lemma length_bracket symbol : length (bracket symbol) = 2 + length symbol.
Proof. rewrite bracket_cons. simpl. rewrite length_app. simpl. lia. Qed.

Lemma bracket_app symbol (rest : str) :
  bracket symbol ++ rest = 91%N :: symbol ++ 93%N :: rest.
Proof. rewrite bracket_cons. simpl. by rewrite <- app_assoc. Qed.

(** Every scan of the chord pattern has the shape [chord_scan]. *)
Lemma scan_chord_scan n : forall s, length s < n -> forall i,
  chord_scan i s (scan chord_pattern 0 i s).
Proof.
  induction n as [|n IH]; intros s Hn i; [lia|].
  destruct s as [|c t]; [constructor|].
  pose proof (match_at_chord i (c :: t)) as Hm.
  destruct (N.eqb_spec c 91) as [->|Hc].
  - pose proof (take_drop_while in_chord t) as Et.
    pose proof (stops_drop_while in_chord t) as Hstop.
    destruct (take_while in_chord t) as [|y sym'] eqn:Esym.
    { rewrite scan_miss by done. constructor. apply IH. simpl in Hn. lia. }
    destruct (drop_while in_chord t) as [|d rest] eqn:Erest.
    { rewrite scan_miss by done. constructor. apply IH. simpl in Hn. lia. }
    apply stops_in_chord in Hstop. subst d. subst t.
    rewrite <- bracket_app in *.
    assert (length (bracket (y :: sym')) = 2 + length (y :: sym')) as El
      by apply length_bracket.
    rewrite (scan_hit _ _ _ _ (S (length (y :: sym'))) Hm).
    + rewrite take_app_length', drop_app_length' by done.
      assert (length rest < n) as Hlen by (rewrite length_app in Hn; lia).
      pose proof (chord_scan_hit i (y :: sym') rest _
                    (IH rest Hlen (i + length (bracket (y :: sym'))))) as Hc.
      rewrite El in Hc. exact Hc.
    + simpl. lia.
    + rewrite length_app, El. simpl. lia.
  - apply N.eqb_neq in Hc. cbv beta iota in Hm. rewrite Hc in Hm.
    rewrite scan_miss by exact Hm. constructor. apply IH. simpl in Hn. lia.
Qed.

Lemma finditer_chord_scan line :
  exists ts, chord_scan 0 line ts /\ finditer chord_pattern line = hits ts
             /\ sub chord_pattern (fun _ => []) line = render (fun _ => []) ts.
Proof.
  exists (scan chord_pattern 0 0 line). split; [|done].
  by apply (scan_chord_scan (S (length line))); lia.
Qed.

(** The matches of a scan follow one another. *)
Lemma spaced_weaken i j marks : j <= i -> spaced i marks -> spaced j marks.
Proof. destruct marks; simpl; [done|]. intros ? [? ?]. split; [lia|done]. Qed.

Lemma chord_scan_spaced i s ts : chord_scan i s ts -> spaced i (hits ts).
Proof.
  induction 1 as [i|i symbol rest ts _ IH|i c s ts _ IH]; simpl.
  - done.
  - split; [done|]. done.
  - eapply spaced_weaken; [|exact IH]. lia.
Qed.

Lemma spaced_Forall i marks : spaced i marks -> Forall (fun m => i <= m_start m) marks.
Proof.
  revert i. induction marks as [|m marks IH]; intros i; simpl; [constructor|].
  intros [Hi Hs]. constructor; [done|].
  eapply Forall_impl; [apply IH, Hs|]. simpl. intros; lia.
Qed.

(** Cutting brackets out behind a prefix leaves the prefix alone. *)
Lemma remove_brackets_app i marks pre x :
  Forall (fun m => i + length pre <= m_start m) marks ->
  remove_brackets i marks (pre ++ x) = pre ++ remove_brackets (i + length pre) marks x.
Proof.
  induction 1 as [|m marks Hm _ IH]; simpl; [done|].
  rewrite IH. unfold delete_span.
  rewrite take_app_ge, drop_app_ge by lia.
  rewrite <- app_assoc. do 3 f_equal; lia.
Qed.

Lemma remove_brackets_cons i marks c x :
  Forall (fun m => S i <= m_start m) marks ->
  remove_brackets i marks (c :: x) = c :: remove_brackets (S i) marks x.
Proof.
  intros H. rewrite <- (Nat.add_1_r i).
  apply (remove_brackets_app i marks [c] x).
  eapply Forall_impl; [exact H|]. simpl. intros; lia.
Qed.

Lemma hits_hit m ts : hits (Hit m :: ts) = m :: hits ts.
Proof. done. Qed.

Lemma hits_lit c ts : hits (Lit c :: ts) = hits ts.
Proof. done. Qed.

Lemma remove_brackets_mark i m marks s :
  remove_brackets i (m :: marks) s =
  delete_span (m_start m - i) (m_start m - i + bracket_length m)
    (remove_brackets i marks s).
Proof. done. Qed.

Lemma bracket_length_mobj i e t symbol :
  bracket_length (MObj i e t [(1, symbol)]) = length (bracket symbol).
Proof. done. Qed.

Lemma delete_span_prefix (pre x : str) :
  delete_span 0 (0 + length pre) (pre ++ x) = x.
Proof. unfold delete_span. by rewrite take_0, Nat.add_0_l, drop_app_length. Qed.

(** The text of the scan with the matches dropped is the line with the
    bracket notation of the matches cut out. *)
Lemma chord_scan_render i s ts :
  chord_scan i s ts -> render (fun _ => []) ts = remove_brackets i (hits ts) s.
Proof.
  induction 1 as [i|i symbol rest ts Hts IH|i c s ts Hts IH].
  - done.
  - rewrite render_cons_hit, hits_hit, remove_brackets_mark.
    rewrite remove_brackets_app
      by (apply spaced_Forall; by apply chord_scan_spaced in Hts).
    cbn [m_start]. rewrite Nat.sub_diag, bracket_length_mobj, delete_span_prefix.
    by rewrite IH.
  - rewrite render_cons_lit, hits_lit.
    rewrite remove_brackets_cons
      by (apply spaced_Forall; by apply chord_scan_spaced in Hts).
    by rewrite IH.
Qed.

Lemma brackets_length_cons m marks :
  brackets_length (m :: marks) = bracket_length m + brackets_length marks.
Proof. done. Qed.

(** The text before a chord mark, without the brackets, starts the text
    of the scan, and its length is the position of the mark less the
    length of the brackets before it. *)
Lemma chord_scan_before i s ts : chord_scan i s ts -> forall k m,
  hits ts !! k = Some m ->
  (exists after,
      render (fun _ => []) ts =
      remove_brackets i (take k (hits ts)) (take (m_start m - i) s) ++ after)
  /\ length (remove_brackets i (take k (hits ts)) (take (m_start m - i) s))
     + brackets_length (take k (hits ts)) + i = m_start m.
Proof.
  induction 1 as [i|i symbol rest ts Hts IH|i c s ts Hts IH]; intros k m Hk.
  - done.
  - pose proof (chord_scan_spaced _ _ _ Hts) as Hsp.
    rewrite hits_hit in *. destruct k as [|k].
    + injection Hk as <-. cbn [m_start]. rewrite Nat.sub_diag, !take_0.
      split; [by eexists|]. simpl. lia.
    + change ((?x :: hits ts) !! S k) with (hits ts !! k) in Hk.
      destruct (IH k m Hk) as [[after Ha] Hl]. clear IH.
      assert (i + length (bracket symbol) <= m_start m) as Hge.
      { eapply (Forall_lookup_1 _ _ _ _ (spaced_Forall _ _ Hsp)). exact Hk. }
      rewrite render_cons_hit, firstn_cons, remove_brackets_mark.
      rewrite take_app_ge by lia.
      rewrite remove_brackets_app
        by (apply Forall_take; by apply spaced_Forall).
      cbn [m_start]. rewrite Nat.sub_diag, bracket_length_mobj, delete_span_prefix.
      replace (m_start m - i - length (bracket symbol))
        with (m_start m - (i + length (bracket symbol))) by lia.
      split; [by exists after|].
      rewrite brackets_length_cons, bracket_length_mobj. lia.
  - pose proof (chord_scan_spaced _ _ _ Hts) as Hsp.
    rewrite hits_lit in *. destruct (IH k m Hk) as [[after Ha] Hl]. clear IH.
    assert (S i <= m_start m) as Hge.
    { eapply (Forall_lookup_1 _ _ _ _ (spaced_Forall _ _ Hsp)). exact Hk. }
    rewrite render_cons_lit.
    replace (m_start m - i) with (S (m_start m - S i)) by lia.
    rewrite firstn_cons, remove_brackets_cons
      by (apply Forall_take; by apply spaced_Forall).
    split.
    + exists after. by rewrite Ha.
    + simpl. lia.
Qed.
End chords.

Section chord_positions.
Import ChordProParser.

Lemma brackets_length_nil : brackets_length [] = 0.
Proof. done. Qed.

Lemma brackets_length_snoc marks m :
  brackets_length (marks ++ [m]) = brackets_length marks + bracket_length m.
Proof.
  unfold brackets_length. rewrite sum_list_with_app. cbn [sum_list_with]. lia.
Qed.

(** A mark starts behind the brackets of the marks before it. *)
Lemma spaced_gap marks : forall i k m,
  spaced i marks -> marks !! k = Some m ->
  i + brackets_length (take k marks) <= m_start m.
Proof.
  induction marks as [|m0 marks IH]; intros i k m Hs Hk; [done|].
  destruct Hs as [Hi Hs]. destruct k as [|k]; simpl in Hk.
  - injection Hk as <-. rewrite take_0, brackets_length_nil. lia.
  - rewrite firstn_cons, brackets_length_cons.
    specialize (IH _ _ _ Hs Hk). lia.
Qed.

(** The positions less the brackets before them do not decrease. *)
Lemma spaced_mono marks : forall i j k m m',
  spaced i marks -> marks !! j = Some m -> marks !! k = Some m' -> j <= k ->
  m_start m + brackets_length (take k marks)
  <= m_start m' + brackets_length (take j marks).
Proof.
  induction marks as [|m0 marks IH]; intros i j k m m' Hs Hj Hk Hjk; [done|].
  destruct Hs as [Hi Hs]. destruct j as [|j]; simpl in Hj.
  - injection Hj as <-. destruct k as [|k]; simpl in Hk.
    + injection Hk as <-. lia.
    + rewrite take_0, firstn_cons, brackets_length_cons, brackets_length_nil.
      pose proof (spaced_gap _ _ _ _ Hs Hk). lia.
  - destruct k as [|k]; [lia|]. simpl in Hk.
    rewrite !firstn_cons, !brackets_length_cons.
    specialize (IH _ j k _ _ Hs Hj Hk). lia.
Qed.

Lemma adjusted_pos_eq marks k p :
  adjusted_pos marks k p = (Z.of_nat p - Z.of_nat (brackets_length (take k marks)))%Z.
Proof.
  unfold adjusted_pos. generalize (take k marks) as l. clear.
  intros l. revert p.
  induction l as [|m l IH] using rev_ind; intros p.
  - rewrite brackets_length_nil. simpl. lia.
  - rewrite fold_left_app, IH, brackets_length_snoc. cbn [fold_left].
    unfold bracket_length, bracket. lia.
Qed.

Lemma parse_chord_line_chords line k :
  ParsedLine.chords (parse_chord_line line) !! k =
  (fun m =>
     ChordPosition.Build
       (take 5 (md5_hexdigest (group m 1 ++ str_of_nat (m_start m))))
       (Z.max 0 (Z.of_nat (m_start m)
                 - Z.of_nat (brackets_length (take k (finditer chord_pattern line)))))
       (group m 1))
  <$> finditer chord_pattern line !! k.
Proof.
  unfold parse_chord_line. cbn [ParsedLine.chords].
  rewrite list_lookup_imap.
  destruct (finditer chord_pattern line !! k) as [m|]; [|done].
  simpl. by rewrite adjusted_pos_eq.
Qed.

Lemma finditer_chord_spaced line : spaced 0 (finditer chord_pattern line).
Proof.
  destruct (finditer_chord_scan line) as (ts & Hts & -> & _).
  by apply chord_scan_spaced in Hts.
Qed.

(** The text of a scan without the matches is the text without the
    chord marks. *)
Lemma scan_strip_marks s : forall skip i,
  render (fun _ => []) (scan chord_pattern skip i s) = strip_marks skip s.
Proof.
  induction s as [|c s IH]; intros skip i.
  - destruct skip; [|done]. cbn [scan]. by rewrite match_at_chord.
  - destruct skip as [|n]; cbn [scan strip_marks]; [|apply IH].
    rewrite match_at_chord. unfold symbol_at.
    destruct (c =? 91)%N; [|by rewrite render_cons_lit, IH].
    change (except 93) with in_symbol.
    destruct (take_while in_symbol s) as [|y sym] eqn:Esym;
      [by rewrite render_cons_lit, IH|].
    destruct (drop_while in_symbol s) as [|d rest] eqn:Erest;
      [by rewrite render_cons_lit, IH|].
    cbn [m_end]. replace (i + (2 + length (y :: sym)) - i) with (S (S (length (y :: sym))))
      by lia.
    rewrite render_cons_hit. cbn [app]. apply IH.
Qed.

Lemma sub_chord_without line :
  sub chord_pattern (fun _ => []) line = without_chords line.
Proof. apply scan_strip_marks. Qed.

(** The matches of a scan are the chord marks. *)
Lemma scan_chord_marks s : forall skip i,
  mark_of <$> hits (scan chord_pattern skip i s) = chord_marks_from skip i s.
Proof.
  induction s as [|c s IH]; intros skip i.
  - destruct skip; [|done]. cbn [scan]. by rewrite match_at_chord.
  - destruct skip as [|n]; cbn [scan chord_marks_from]; [|apply IH].
    rewrite match_at_chord. unfold symbol_at.
    destruct (c =? 91)%N; [|by rewrite hits_lit, IH].
    change (except 93) with in_symbol.
    destruct (take_while in_symbol s) as [|y sym] eqn:Esym;
      [by rewrite hits_lit, IH|].
    destruct (drop_while in_symbol s) as [|d rest] eqn:Erest;
      [by rewrite hits_lit, IH|].
    cbn [m_end]. replace (i + (2 + length (y :: sym)) - i) with (S (S (length (y :: sym))))
      by lia.
    rewrite hits_hit, fmap_cons, IH. done.
Qed.

Lemma finditer_chord_marks line :
  mark_of <$> finditer chord_pattern line = chord_marks line.
Proof. apply scan_chord_marks. Qed.

Lemma sub_chord_cut line :
  sub chord_pattern (fun _ => []) line
  = remove_brackets 0 (finditer chord_pattern line) line.
Proof.
  destruct (finditer_chord_scan line) as (ts & Hts & Hf & ->).
  rewrite Hf. by apply chord_scan_render.
Qed.

(** Every match is the bracket notation of its symbol, at its position. *)
Lemma chord_scan_mark i s ts : chord_scan i s ts -> forall k m,
  hits ts !! k = Some m ->
  m_text m = bracket (group m 1)
  /\ m_end m = m_start m + bracket_length m
  /\ take (bracket_length m) (drop (m_start m - i) s) = bracket (group m 1).
Proof.
  induction 1 as [i|i symbol rest ts Hts IH|i c s ts Hts IH]; intros k m Hk.
  - done.
  - pose proof (chord_scan_spaced _ _ _ Hts) as Hsp.
    rewrite hits_hit in Hk. destruct k as [|k].
    + injection Hk as <-. cbn [m_start m_end m_text].
      rewrite bracket_length_mobj, Nat.sub_diag, drop_0, take_app_length.
      done.
    + change ((?x :: hits ts) !! S k) with (hits ts !! k) in Hk.
      destruct (IH k m Hk) as (H1 & H2 & H4). repeat split; try done.
      assert (i + length (bracket symbol) <= m_start m) as Hge.
      { eapply (Forall_lookup_1 _ _ _ _ (spaced_Forall _ _ Hsp)). exact Hk. }
      rewrite drop_app_ge by lia. rewrite <- H4. do 2 f_equal. lia.
  - pose proof (chord_scan_spaced _ _ _ Hts) as Hsp.
    rewrite hits_lit in Hk.
    destruct (IH k m Hk) as (H1 & H2 & H4). repeat split; try done.
    assert (S i <= m_start m) as Hge.
    { eapply (Forall_lookup_1 _ _ _ _ (spaced_Forall _ _ Hsp)). exact Hk. }
    replace (m_start m - i) with (S (m_start m - S i)) by lia. done.
Qed.
End chord_positions.

Section chord_marks_facts.
Import ChordProParser.

Lemma in_symbol_Forall symbol :
  Forall (fun c => in_symbol c = true) symbol <-> 93%N ∉ symbol.
Proof.
  rewrite Forall_forall. split.
  - intros H Hin. specialize (H _ Hin). done.
  - intros H c Hc. unfold in_symbol. apply negb_true_iff, N.eqb_neq.
    intros ->. done.
Qed.

(** A symbol is read at the head of a text exactly when the text starts
    on a bracket notation. *)
Lemma symbol_at_Some s symbol :
  symbol_at s = Some symbol ->
  symbol <> [] /\ (93%N ∉ symbol) /\ exists rest, s = bracket symbol ++ rest.
Proof.
  destruct s as [|c s]; [done|]. unfold symbol_at.
  destruct (N.eqb_spec c 91) as [->|]; [|done].
  pose proof (take_drop_while in_symbol s) as Es.
  pose proof (Forall_take_while in_symbol s) as Hsym.
  pose proof (stops_drop_while in_symbol s) as Hstop.
  destruct (take_while in_symbol s) as [|y sym]; [done|].
  destruct (drop_while in_symbol s) as [|d rest]; [done|].
  intros [= <-]. split; [done|]. split; [by apply in_symbol_Forall|].
  exists rest. rewrite bracket_app, <- Es. do 3 f_equal.
  simpl in Hstop. unfold in_symbol in Hstop.
  apply negb_false_iff in Hstop. by apply N.eqb_eq in Hstop.
Qed.

Lemma symbol_at_bracket symbol rest :
  symbol <> [] -> 93%N ∉ symbol -> symbol_at (bracket symbol ++ rest) = Some symbol.
Proof.
  intros Hne Hno. apply in_symbol_Forall in Hno.
  rewrite bracket_app. unfold symbol_at. change (91 =? 91)%N with true. cbv iota.
  rewrite take_while_app, drop_while_app by done.
  by destruct symbol.
Qed.

(** Every mark found is a bracket notation of the line, behind the
    characters still to be passed. *)
Lemma chord_marks_from_sound s : forall skip i j symbol,
  (j, symbol) ∈ chord_marks_from skip i s ->
  i + skip <= j /\ symbol <> [] /\ (93%N ∉ symbol)
  /\ take (length (bracket symbol)) (drop (j - i) s) = bracket symbol.
Proof.
  induction s as [|c s IH]; intros skip i j symbol Hin; cbn [chord_marks_from] in Hin.
  - by apply elem_of_nil in Hin.
  - destruct skip as [|n].
    + destruct (symbol_at (c :: s)) as [sym|] eqn:Esym.
      * apply elem_of_cons in Hin as [[= -> ->]|Hin].
        -- apply symbol_at_Some in Esym as (Hne & Hno & rest & ->).
           rewrite Nat.sub_diag, drop_0, take_app_length. auto with lia.
        -- destruct (IH _ _ _ _ Hin) as (Hle & Hne & Hno & Ht).
           repeat split; try done; [lia|].
           replace (j - i) with (S (j - S i)) by lia. done.
      * destruct (IH _ _ _ _ Hin) as (Hle & Hne & Hno & Ht).
        repeat split; try done; [lia|].
        replace (j - i) with (S (j - S i)) by lia. done.
    + destruct (IH _ _ _ _ Hin) as (Hle & Hne & Hno & Ht).
      repeat split; try done; [lia|].
      replace (j - i) with (S (j - S i)) by lia. done.
Qed.

(** Every bracket notation of the line behind the characters still to be
    passed starts inside a mark that is found. *)
Lemma chord_marks_from_complete s : forall skip i p symbol,
  skip <= p -> symbol <> [] -> 93%N ∉ symbol ->
  take (length (bracket symbol)) (drop p s) = bracket symbol ->
  exists j sym, (j, sym) ∈ chord_marks_from skip i s
                /\ j <= i + p < j + length (bracket sym).
Proof.
  induction s as [|c s IH]; intros skip i p symbol Hp Hne Hno Ht.
  - rewrite drop_nil, take_nil in Ht. by rewrite bracket_cons in Ht.
  - cbn [chord_marks_from]. destruct skip as [|n].
    + destruct p as [|p].
      * rewrite drop_0 in Ht.
        assert (c :: s = bracket symbol ++ drop (length (bracket symbol)) (c :: s)) as Es.
        { rewrite <- Ht at 1. by rewrite take_drop. }
        rewrite Es, (symbol_at_bracket _ _ Hne Hno).
        exists i, symbol. split; [apply list_elem_of_here|].
        rewrite length_bracket. lia.
      * destruct (symbol_at (c :: s)) as [sym|] eqn:Esym.
        -- destruct (decide (S p < length (bracket sym))) as [Hin|Hout].
           ++ exists i, sym. split; [apply list_elem_of_here|]. lia.
           ++ rewrite length_bracket in Hout.
              destruct (IH (S (length sym)) (S i) p symbol) as (j & sym' & Hj & Hb);
                [lia|done|done|done|].
              exists j, sym'. split; [by apply list_elem_of_further|]. lia.
        -- destruct (IH 0 (S i) p symbol) as (j & sym' & Hj & Hb);
             [lia|done|done|done|].
           exists j, sym'. split; [done|]. lia.
    + destruct p as [|p]; [lia|].
      destruct (IH n (S i) p symbol) as (j & sym' & Hj & Hb); [lia|done|done|done|].
      exists j, sym'. split; [done|]. lia.
Qed.

(** Cutting the marks of the matches out is cutting the matches out. *)
Lemma delete_marks_matches ms s :
  delete_marks (mark_of <$> ms) s = remove_brackets 0 ms s.
Proof.
  unfold delete_marks, remove_brackets. induction ms as [|m ms IH]; [done|].
  rewrite fmap_cons. cbn [fold_right]. rewrite IH.
  unfold mark_of, bracket_length. cbn [fst snd]. by rewrite Nat.sub_0_r.
Qed.

Lemma without_chords_delete line :
  without_chords line = delete_marks (chord_marks line) line.
Proof.
  rewrite <- finditer_chord_marks, delete_marks_matches, <- sub_chord_cut.
  symmetry. apply sub_chord_without.
Qed.

(** The length of the bracket notation of marks and of matches. *)
Lemma brackets_length_marks ms :
  brackets_length ms = sum_list_with (fun mark => length (bracket mark.2)) (mark_of <$> ms).
Proof.
  unfold brackets_length. induction ms as [|m ms IH]; [done|].
  cbn [fmap list_fmap sum_list_with]. by rewrite IH.
Qed.
End chord_marks_facts.

Section leading_number.
Import ChordProParser.

Lemma decimal_not_stop c : isdecimal c = true -> only 46 c = false.
Proof.
  intros Hc. unfold only. destruct (N.eqb_spec c 46) as [->|]; [|done].
  vm_compute in Hc. discriminate.
Qed.

Lemma match_at_leading_later i s : match_at LEADING_NUMBER_PATTERN (S i) s = None.
Proof. done. Qed.

Lemma match_at_leading s :
  match_at LEADING_NUMBER_PATTERN 0 s =
  match leading_marker_length s with
  | 0 => None
  | S n => Some (MObj 0 (S n) (take (S n) s) [])
  end.
Proof.
  unfold match_at, LEADING_NUMBER_PATTERN, Plus. simpl rmatch.
  destruct s as [|c t]; [done|].
  unfold leading_marker_length. simpl take_while. simpl drop_while.
  destruct (isdecimal c) eqn:E; [|done].
  rewrite star_cls_backoff.
  2: { intros j c0 u Hc. by rewrite decimal_not_stop. }
  destruct (drop_while isdecimal t) as [|c' rest]; [done|].
  unfold only. destruct (c' =? 46)%N; [|done].
  rewrite star_cls_longest by done.
  cbn [length Nat.add]. rewrite Nat.sub_0_r.
  replace (S (length (take_while isdecimal t) + 1 + length (take_while isspace rest)))
    with (S (S (length (take_while isdecimal t)) + length (take_while isspace rest)))
    by lia.
  done.
Qed.

Lemma scan_leading_rest s : forall n i,
  render (fun _ => []) (scan LEADING_NUMBER_PATTERN n (S i) s) = drop n s.
Proof.
  induction s as [|c s IH]; intros n i.
  - by destruct n.
  - destruct n as [|n]; cbn [scan].
    + rewrite match_at_leading_later, render_cons_lit, IH. done.
    + by rewrite IH.
Qed.

(** Removing the leading number drops the marker, when there is one. *)
Lemma sub_leading_number s :
  sub LEADING_NUMBER_PATTERN (fun _ => []) s = drop (leading_marker_length s) s.
Proof.
  unfold sub. destruct s as [|c t]; cbn [scan]; rewrite match_at_leading.
  - by destruct (leading_marker_length []).
  - destruct (leading_marker_length (c :: t)) as [|n].
    + by rewrite render_cons_lit, scan_leading_rest.
    + cbn [m_end]. rewrite Nat.sub_0_r, render_cons_hit, scan_leading_rest. done.
Qed.

Lemma parse_chord_line_text line :
  ParsedLine.text (parse_chord_line line) =
  drop (leading_marker_length (without_chords line)) (without_chords line).
Proof.
  unfold parse_chord_line. cbn [ParsedLine.text].
  by rewrite sub_chord_without, sub_leading_number.
Qed.
End leading_number.

Section chord_lines.
Import ChordProParser.

Lemma take_while_app_ge {A} (p : A -> bool) (w x : list A) :
  Forall (fun a => p a = true) w -> length w <= length (take_while p (w ++ x)).
Proof.
  induction 1 as [|a w Ha _ IH]; simpl; [lia|]. rewrite Ha. simpl. lia.
Qed.

Lemma scan_chord_plain i c s :
  (c =? 91)%N = false ->
  scan chord_pattern 0 i (c :: s) = Lit c :: scan chord_pattern 0 (S i) s.
Proof.
  intros Hc. apply scan_miss. rewrite match_at_chord. by rewrite Hc.
Qed.

Lemma render_chord_plain i pre rest :
  Forall (fun c => (c =? 91)%N = false) pre ->
  render (fun _ => []) (scan chord_pattern 0 i (pre ++ rest)) =
  pre ++ render (fun _ => []) (scan chord_pattern 0 (i + length pre) rest).
Proof.
  intros H. revert i. induction H as [|c pre Hc _ IH]; intros i; cbn [app length].
  - by rewrite Nat.add_0_r.
  - rewrite scan_chord_plain, render_cons_lit, IH by done.
    by rewrite Nat.add_succ_r.
Qed.

(** A line that starts on a numeric-list marker loses at least that
    marker. *)
Lemma leading_marker_removed digits spaces rest :
  digits <> [] ->
  Forall (fun c => isdecimal c = true) digits ->
  Forall (fun c => isspace c = true) spaces ->
  length digits + 1 + length spaces
  <= leading_marker_length (without_chords (digits ++ [46%N] ++ spaces ++ rest)).
Proof.
  intros Hne Hd Hs.
  rewrite <- sub_chord_without. unfold sub.
  rewrite !app_assoc, render_chord_plain.
  2: { rewrite !Forall_app. repeat split.
       - eapply Forall_impl; [exact Hd|]. intros c Hc.
         destruct (N.eqb_spec c 91) as [->|]; [|done]. vm_compute in Hc. discriminate.
       - by repeat constructor.
       - eapply Forall_impl; [exact Hs|]. intros c Hc.
         destruct (N.eqb_spec c 91) as [->|]; [|done]. vm_compute in Hc. discriminate. }
  rewrite <- !app_assoc. unfold leading_marker_length.
  rewrite take_while_app, drop_while_app by done.
  destruct digits as [|d digits]; [done|]. cbn [app].
  change (46 =? 46)%N with true. cbv iota.
  apply Nat.add_le_mono_l. by apply take_while_app_ge.
Qed.

(** C2, as amended: the chord marks of a line are its bracket-notation
    substrings, taken from left to right, a mark being looked for behind
    the one before: every mark is the bracket notation of a symbol (at
    least one character, none of them a closing bracket) at its position,
    and every such notation of the line starts inside a mark.  The chords
    returned are these marks, one entry per mark in the order of the
    line; the position of the [k]-th entry is the position of the mark
    less the length of the bracket notation before it, so the positions
    do not decrease; and the text is the line with the marks cut out and
    then a leading numeric-list marker dropped, if there is one. *)
Theorem C2_parse_chord_line_marks line :
  let marks := chord_marks line in
  let parsed := parse_chord_line line in
  (forall k i symbol, marks !! k = Some (i, symbol) -> mark_at line i symbol)
  /\ (forall i symbol, mark_at line i symbol ->
        exists j sym, (j, sym) ∈ marks /\ j <= i < j + length (bracket sym))
  /\ length (ParsedLine.chords parsed) = length marks
  /\ (forall k i symbol, marks !! k = Some (i, symbol) ->
        exists c, ParsedLine.chords parsed !! k = Some c
          /\ ChordPosition.key c = symbol
          /\ ChordPosition.pos c =
             (Z.of_nat i
              - Z.of_nat (sum_list_with (fun mark => length (bracket mark.2))
                            (take k marks)))%Z)
  /\ (forall j k c c',
        j <= k -> ParsedLine.chords parsed !! j = Some c ->
        ParsedLine.chords parsed !! k = Some c' ->
        (ChordPosition.pos c <= ChordPosition.pos c')%Z)
  /\ without_chords line = delete_marks marks line
  /\ ParsedLine.text parsed =
     drop (leading_marker_length (without_chords line)) (without_chords line).
Proof.
  intros marks parsed. pose proof (finditer_chord_spaced line) as Hsp.
  pose proof (finditer_chord_marks line) as Hmarks. fold marks in Hmarks.
  set (found := finditer chord_pattern line) in *.
  split; [|split; [|split; [|split; [|split; [|split]]]]].
  - intros k i symbol Hk.
    apply list_elem_of_lookup_2, chord_marks_from_sound in Hk
      as (_ & Hne & Hno & Ht).
    by rewrite Nat.sub_0_r in Ht.
  - intros i symbol (Hne & Hno & Ht).
    destruct (chord_marks_from_complete line 0 0 i symbol) as (j & sym & Hj & Hb);
      [lia|done|done|done|].
    exists j, sym. split; [done|]. lia.
  - unfold parsed, parse_chord_line. cbn [ParsedLine.chords].
    rewrite length_imap. fold found. by rewrite <- Hmarks, length_fmap.
  - intros k i symbol Hk. rewrite <- Hmarks, list_lookup_fmap in Hk.
    destruct (found !! k) as [m|] eqn:Hm; [|done]. injection Hk as <- <-.
    unfold parsed. rewrite parse_chord_line_chords. fold found. rewrite Hm.
    eexists. split; [reflexivity|]. split; [done|]. cbn [ChordPosition.pos].
    rewrite <- Hmarks, <- fmap_take, <- brackets_length_marks.
    pose proof (spaced_gap _ _ _ _ Hsp Hm). lia.
  - intros j k c c' Hjk. unfold parsed. rewrite !parse_chord_line_chords. fold found.
    destruct (found !! j) as [m|] eqn:Hj; [|done].
    destruct (found !! k) as [m'|] eqn:Hk; [|done].
    intros [= <-] [= <-]. cbn [ChordPosition.pos].
    pose proof (spaced_mono _ _ _ _ _ _ Hsp Hj Hk Hjk). lia.
  - apply without_chords_delete.
  - apply parse_chord_line_text.
Qed.

Lemma C2_parse_chord_line_marks_witness :
  (exists c,
      ParsedLine.chords (parse_chord_line (lit "[C]Hello [G7]world")) !! 1 = Some c
      /\ ChordPosition.key c = lit "G7"
      /\ ChordPosition.pos c = 6%Z)
  /\ (exists j sym,
        (j, sym) ∈ chord_marks (lit "[C]Hello [G7]world")
        /\ j <= 9 < j + length (bracket sym)).
Proof.
  destruct (C2_parse_chord_line_marks (lit "[C]Hello [G7]world"))
    as (_ & Hall & _ & H & _).
  split.
  - destruct (H 1 9 (lit "G7") eq_refl) as (c & H1 & H2 & H3).
    exists c. repeat split; [exact H1 | exact H2 | exact H3].
  - apply (Hall 9 (lit "G7")). split; [discriminate|]. split; [|reflexivity].
    intros Hin. repeat (apply elem_of_cons in Hin as [Hin|Hin]; [discriminate Hin|]).
    by apply elem_of_nil in Hin.
Defined.

(** C2 as stated fails: the numeric-list marker, which holds no bracket,
    is removed from the text as well. *)
Lemma C2_counterexample :
  ParsedLine.text (parse_chord_line (lit "1. [C]Hello")) = lit "Hello"
  /\ without_chords (lit "1. [C]Hello") = lit "1. Hello".
Proof. split; vm_compute; reflexivity. Qed.

(** C9, as amended: the position of a chord is the length of the text
    before it without the brackets, taken before the marker is removed
    from the text; when the removed marker is no longer than that, the
    position exceeds the place of the chord in the returned text by the
    length of the removed marker.  A line that starts on a numeric-list
    marker loses at least that marker. *)
Theorem C9_pos_ignores_removed_marker line k m :
  finditer chord_pattern line !! k = Some m ->
  let parsed := parse_chord_line line in
  let clean := without_chords line in
  let removed := leading_marker_length clean in
  let before := text_before_chord line k m in
  ParsedLine.text parsed = drop removed clean
  /\ take (length before) clean = before
  /\ (exists c, ParsedLine.chords parsed !! k = Some c
        /\ ChordPosition.pos c = Z.of_nat (length before)
        /\ (removed <= length before ->
            take (length before - removed) (ParsedLine.text parsed) = drop removed before
            /\ ChordPosition.pos c
               = (Z.of_nat (length before - removed) + Z.of_nat removed)%Z))
  /\ (forall digits spaces rest,
        line = digits ++ [46%N] ++ spaces ++ rest ->
        digits <> [] ->
        Forall (fun c => isdecimal c = true) digits ->
        Forall (fun c => isspace c = true) spaces ->
        length digits + 1 + length spaces <= removed).
Proof.
  intros Hk parsed clean removed before.
  destruct (finditer_chord_scan line) as (ts & Hts & Hf & Hsub).
  pose proof Hk as Hk'. rewrite Hf in Hk'.
  destruct (chord_scan_before _ _ _ Hts _ _ Hk') as [[after Ha] Hl].
  rewrite Nat.sub_0_r, <- Hf in Ha, Hl. fold (text_before_chord line k m) in Ha, Hl.
  fold before in Ha, Hl. rewrite <- Hsub, sub_chord_without in Ha. fold clean in Ha.
  assert (ParsedLine.text parsed = drop removed clean) as Htext
    by apply parse_chord_line_text.
  split; [done|]. split; [by rewrite Ha, take_app_length|]. split.
  - unfold parsed. rewrite parse_chord_line_chords, Hk.
    eexists. split; [reflexivity|]. cbn [ChordPosition.pos]. split; [lia|].
    intros Hle. split; [|lia].
    change (parse_chord_line line) with parsed.
    rewrite Htext, Ha, drop_app_le by done.
    apply take_app_length'. rewrite length_drop. lia.
  - intros digits spaces rest -> Hne Hd Hs. by apply leading_marker_removed.
Qed.

Lemma C9_pos_ignores_removed_marker_witness :
  exists c,
    ParsedLine.chords (parse_chord_line (lit "1. [C]Hello [G]world")) !! 1 = Some c
    /\ ChordPosition.pos c = 9%Z
    /\ ParsedLine.text (parse_chord_line (lit "1. [C]Hello [G]world")) = lit "Hello world".
Proof.
  destruct (C9_pos_ignores_removed_marker (lit "1. [C]Hello [G]world") 1
              (MObj 12 15 (lit "[G]") [(1, lit "G")]) eq_refl)
    as (Ht & _ & (c & Hc & Hp & _) & _).
  exists c. split; [exact Hc|]. split; [exact Hp|]. exact Ht.
Defined.

(** C9 as stated fails: the first chord of this line stands in the white
    space that goes with the marker, and its position, 3, is less than
    the four characters removed. *)
Lemma C9_counterexample :
  let line := lit "1. [C] Hello [G]world" in
  let parsed := parse_chord_line line in
  ParsedLine.text parsed = lit "Hello world"
  /\ length (without_chords line) - length (ParsedLine.text parsed) = 4
  /\ map ChordPosition.pos (ParsedLine.chords parsed) = [3%Z; 10%Z].
Proof. repeat split; vm_compute; reflexivity. Qed.
End chord_lines.

Section dedup.
Import ChordProParser.
Local Abbreviation hash := ChordProSection.get_content_hash.

Lemma dedup_inv_init : dedup_inv [] ([], ∅, []).
Proof.
  split; [done|]. split; [|split].
  - intros h j. split.
    + intros H. by rewrite lookup_empty in H.
    + by intros (s & Hs & _).
  - by intros i s Hi.
  - by intros j s Hj.
Qed.

Lemma dedup_inv_step processed st section :
  dedup_inv processed st -> dedup_inv (processed ++ [section]) (dedup_step st section).
Proof.
  destruct st as [[u sm] im]. intros (Hlen & Hmap & Hidx & Hfirst).
  unfold dedup_step.
  destruct (sm !! hash section) as [j|] eqn:Hlook.
  - (* a section seen before *)
    repeat split.
    + rewrite !length_app. simpl. lia.
    + apply Hmap.
    + apply Hmap.
    + intros i s Hi. apply lookup_app_Some in Hi as [Hi|[Hge Hi]].
      * destruct (Hidx i s Hi) as (j' & Hj1 & Hj2). exists j'. split; [done|].
        by apply lookup_app_l_Some.
      * apply list_lookup_singleton_Some in Hi as [Hi <-].
        exists j. split; [done|].
        replace i with (length im) by lia.
        by rewrite lookup_app_r, Nat.sub_diag.
    + intros j' s Hj'. destruct (Hfirst j' s Hj') as (i & Hi1 & Hi2 & Hi3).
      exists i. split; [by apply lookup_app_l_Some|]. split; [by apply lookup_app_l_Some|].
      intros i' s' Hlt Hi'. apply (Hi3 i' s' Hlt).
      apply lookup_lt_Some in Hi1.
      by rewrite lookup_app_l in Hi' by lia.
  - (* a new unique section *)
    assert (forall s, s ∈ processed -> hash s <> hash section) as Hfresh.
    { intros s Hs Heq. apply list_elem_of_lookup in Hs as [i Hi].
      destruct (Hidx i s Hi) as (j & Hj & _). congruence. }
    repeat split.
    + rewrite !length_app. simpl. lia.
    + intros Hj. destruct (decide (hash section = h)) as [<-|Hne].
      * rewrite lookup_insert_eq in Hj. injection Hj as <-.
        exists section. split; [|done].
        by rewrite lookup_app_r, Nat.sub_diag.
      * rewrite lookup_insert_ne in Hj by done.
        apply Hmap in Hj as (s & Hs & Hh). exists s. split; [|done].
        by apply lookup_app_l_Some.
    + intros (s & Hs & Hh). apply lookup_app_Some in Hs as [Hs|[Hge Hs]].
      * assert (sm !! h = Some j) as Hj by (apply Hmap; eauto).
        destruct (decide (hash section = h)) as [<-|Hne]; [congruence|].
        by rewrite lookup_insert_ne.
      * apply list_lookup_singleton_Some in Hs as [Hs <-]. subst h.
        rewrite lookup_insert_eq. f_equal. lia.
    + intros i s Hi. apply lookup_app_Some in Hi as [Hi|[Hge Hi]].
      * destruct (Hidx i s Hi) as (j' & Hj1 & Hj2). exists j'. split.
        -- rewrite lookup_insert_ne; [done|].
           intros Heq. apply (Hfresh s); [|done].
           apply list_elem_of_lookup. eauto.
        -- by apply lookup_app_l_Some.
      * apply list_lookup_singleton_Some in Hi as [Hi <-].
        exists (length u). split; [by rewrite lookup_insert_eq|].
        replace i with (length im) by lia.
        by rewrite lookup_app_r, Nat.sub_diag.
    + intros j s Hj. apply lookup_app_Some in Hj as [Hj|[Hge Hj]].
      * destruct (Hfirst j s Hj) as (i & Hi1 & Hi2 & Hi3).
        exists i. split; [by apply lookup_app_l_Some|].
        split; [by apply lookup_app_l_Some|].
        intros i' s' Hlt Hi'. apply (Hi3 i' s' Hlt).
        apply lookup_lt_Some in Hi1.
        by rewrite lookup_app_l in Hi' by lia.
      * apply list_lookup_singleton_Some in Hj as [Hj <-].
        exists (length processed). split; [by rewrite lookup_app_r, Nat.sub_diag|].
        split.
        -- rewrite <- Hlen, lookup_app_r, Nat.sub_diag by done. simpl. f_equal. lia.
        -- intros i' s' Hlt Hi'. rewrite lookup_app_l in Hi' by done.
           apply Hfresh. apply list_elem_of_lookup. eauto.
Qed.

Lemma dedup_inv_fold sections : forall processed st,
  dedup_inv processed st ->
  dedup_inv (processed ++ sections) (fold_left dedup_step sections st).
Proof.
  induction sections as [|s sections IH]; intros processed st Hinv; simpl.
  - by rewrite app_nil_r.
  - rewrite cons_middle, app_assoc. apply IH. by apply dedup_inv_step.
Qed.

(** The result of [deduplicate_sections] with the map of its loop. *)
Lemma deduplicate_sections_inv sections :
  exists section_map,
    dedup_inv sections
      ((deduplicate_sections sections).1, section_map, (deduplicate_sections sections).2).
Proof.
  pose proof (dedup_inv_fold sections [] _ dedup_inv_init) as H.
  unfold deduplicate_sections.
  destruct (fold_left dedup_step sections ([], ∅, [])) as [[u sm] im].
  by exists sm.
Qed.

(** C5: the index map has one entry per section; sections with the same
    content hash get the same unique index, wherever they stand; and the
    unique section at that index is the first section of the input with
    that hash, so its name and type are the ones kept. *)
Theorem C5_deduplicate_sections sections :
  let unique := (deduplicate_sections sections).1 in
  let index_map := (deduplicate_sections sections).2 in
  length index_map = length sections
  /\ (forall i j s s',
        sections !! i = Some s -> sections !! j = Some s' -> hash s = hash s' ->
        exists u, index_map !! i = Some u /\ index_map !! j = Some u)
  /\ (forall i s,
        sections !! i = Some s ->
        exists u f first,
          index_map !! i = Some u /\ unique !! u = Some first
          /\ sections !! f = Some first /\ f <= i /\ hash first = hash s
          /\ forall f' s', f' < f -> sections !! f' = Some s' -> hash s' <> hash s).
Proof.
  intros unique index_map.
  destruct (deduplicate_sections_inv sections) as (sm & Hlen & Hmap & Hidx & Hfirst).
  fold unique index_map in Hlen, Hmap, Hidx, Hfirst.
  split; [done|]. split.
  - intros i j s s' Hi Hj Heq.
    destruct (Hidx i s Hi) as (u & Hu1 & Hu2).
    destruct (Hidx j s' Hj) as (u' & Hu1' & Hu2').
    exists u. split; [done|]. congruence.
  - intros i s Hi.
    destruct (Hidx i s Hi) as (u & Hu1 & Hu2).
    apply Hmap in Hu1 as (first & Hf1 & Hf2).
    destruct (Hfirst u first Hf1) as (f & Hf3 & Hf4 & Hf5).
    exists u, f, first. repeat split; try done.
    + destruct (decide (f <= i)) as [|Hgt]; [done|].
      exfalso. apply (Hf5 i s); [lia|done|congruence].
    + intros f' s' Hlt Hf'. rewrite <- Hf2. by apply (Hf5 f' s').
Qed.

(** C6: sections whose content lines agree once the comment lines are
    left out have the same content hash and are deduplicated to the
    first of them; so do the sections with the lines [Line 1], [Line 2]
    and [Line 1], [{c: X}], [Line 2], whatever their names, types and
    numbers. *)
Theorem C6_content_hash_ignores_comments :
  (forall s1 s2,
      List.filter (fun line => negb (startswith (strip line) (lit "{c:")))
        (ChordProSection.content s1)
      = List.filter (fun line => negb (startswith (strip line) (lit "{c:")))
          (ChordProSection.content s2) ->
      hash s1 = hash s2 /\ deduplicate_sections [s1; s2] = ([s1], [0; 0]))
  /\ (forall name1 type1 number1 raw1 name2 type2 number2 raw2,
        let s1 := ChordProSection.Build name1 type1 number1
                    [lit "Line 1"; lit "Line 2"] raw1 in
        let s2 := ChordProSection.Build name2 type2 number2
                    [lit "Line 1"; lit "{c: X}"; lit "Line 2"] raw2 in
        hash s1 = hash s2 /\ deduplicate_sections [s1; s2] = ([s1], [0; 0])).
Proof.
  assert (forall s1 s2,
      ChordProSection.content_lines s1 = ChordProSection.content_lines s2 ->
      hash s1 = hash s2 /\ deduplicate_sections [s1; s2] = ([s1], [0; 0])) as Hgen.
  { intros s1 s2 Heq.
    assert (hash s1 = hash s2) as Hh
      by (unfold ChordProSection.get_content_hash; by rewrite Heq).
    split; [done|].
    unfold deduplicate_sections. cbn [fold_left]. unfold dedup_step at 2.
    rewrite lookup_empty. unfold dedup_step.
    rewrite <- Hh, lookup_insert_eq. reflexivity. }
  split; [exact Hgen|].
  intros. apply Hgen. vm_compute. reflexivity.
Qed.

End dedup.

Section dedup_examples.
Import ChordProParser.
Local Abbreviation hash := ChordProSection.get_content_hash.

Lemma C6_content_hash_ignores_comments_witness :
  let s1 := ChordProSection.Build (lit "Verse 1") (lit "verse") (Some (lit "1"))
              [lit "[C]Amazing grace"] (lit "[C]Amazing grace") in
  let s2 := ChordProSection.Build (lit "Verse 2") (lit "verse") (Some (lit "2"))
              [lit " {c: again}"; lit "[C]Amazing grace"]
              (lit " {c: again}" ++ [10%N] ++ lit "[C]Amazing grace") in
  hash s1 = hash s2 /\ deduplicate_sections [s1; s2] = ([s1], [0; 0]).
Proof.
  intros s1 s2.
  apply (proj1 C6_content_hash_ignores_comments s1 s2).
  vm_compute. reflexivity.
Defined.

Lemma C5_deduplicate_sections_witness :
  let s1 := ChordProSection.Build (lit "Verse 1") (lit "verse") (Some (lit "1"))
              [lit "Line 1"; lit "Line 2"] (lit "Line 1" ++ [10%N] ++ lit "Line 2") in
  let s2 := ChordProSection.Build (lit "Verse 2") (lit "verse") (Some (lit "2"))
              [lit "Line 1"; lit "Line 2"] (lit "Line 1" ++ [10%N] ++ lit "Line 2") in
  let s3 := ChordProSection.Build (lit "Verse 3") (lit "verse") (Some (lit "3"))
              [lit "Different"; lit "Content"]
              (lit "Different" ++ [10%N] ++ lit "Content") in
  exists u, (deduplicate_sections [s1; s2; s3]).2 !! 0 = Some u
            /\ (deduplicate_sections [s1; s2; s3]).2 !! 1 = Some u.
Proof.
  intros s1 s2 s3.
  apply (proj1 (proj2 (C5_deduplicate_sections [s1; s2; s3])) 0 1 s1 s2).
  - reflexivity.
  - reflexivity.
  - vm_compute. reflexivity.
Defined.
End dedup_examples.

Section section_info.
Import ChordProParser.
Context `{casing : Casing}.

Lemma find_type_fallback table type_part section_type :
  (forall key value, (key, value) ∈ table -> contains type_part key = false) ->
  find_type table type_part section_type = section_type.
Proof.
  induction table as [|[key value] table IH]; intros H; simpl; [done|].
  rewrite (H key value) by apply list_elem_of_here.
  apply IH. intros k v Hin. apply (H k v). by apply list_elem_of_further.
Qed.

Lemma find_type_first before key value after type_part section_type :
  (forall k v, (k, v) ∈ before -> contains type_part k = false) ->
  contains type_part key = true ->
  find_type (before ++ (key, value) :: after) type_part section_type = value.
Proof.
  induction before as [|[k v] before IH]; intros Hno Hyes; simpl.
  - by rewrite Hyes.
  - rewrite (Hno k v) by apply list_elem_of_here.
    apply IH; [|done]. intros k' v' Hin. apply (Hno k' v'). by apply list_elem_of_further.
Qed.

Lemma parse_section_info_label config block_type label :
  label <> [] ->
  _parse_section_info config block_type (Some label) =
  SectionInfo.Build label
    (find_type (ProcessorConfig.label_to_type_map config) (lookup_text label) block_type)
    (match rematch LABEL_PATTERN (lower label) with
     | Some m => Some (group m 2)
     | None => None
     end).
Proof. intros Hne. destruct label as [|c label]; [done|]. reflexivity. Qed.

(** C7: the block keyword [chorus] with the label [Refrain 2] resolves to
    the type [chorus], the ordinal [2] and the name [Refrain 2]; a label
    that is supplied (a text that is not empty) is returned as the name;
    when no key of the label-to-type table occurs in the lookup text, or
    no label is supplied, the type is the raw block keyword; and the type
    is otherwise the one of the first entry of the table whose key occurs
    in the lookup text.  The case mappings are those of the run time,
    whatever they do beyond Latin-1. *)
Theorem C7_parse_section_info :
  _parse_section_info ProcessorConfig.default (lit "chorus") (Some (lit "Refrain 2"))
  = SectionInfo.Build (lit "Refrain 2") (lit "chorus") (Some (lit "2"))
  /\ (forall config block_type label,
        label <> [] ->
        SectionInfo.name (_parse_section_info config block_type (Some label)) = label)
  /\ (forall config block_type label,
        (forall key value,
            (key, value) ∈ ProcessorConfig.label_to_type_map config ->
            contains (lookup_text label) key = false) ->
        SectionInfo.type (_parse_section_info config block_type (Some label))
        = block_type)
  /\ (forall config block_type,
        SectionInfo.type (_parse_section_info config block_type None) = block_type
        /\ SectionInfo.type (_parse_section_info config block_type (Some []))
           = block_type)
  /\ (forall config block_type label before key value after,
        label <> [] ->
        ProcessorConfig.label_to_type_map config = before ++ (key, value) :: after ->
        (forall k v, (k, v) ∈ before -> contains (lookup_text label) k = false) ->
        contains (lookup_text label) key = true ->
        SectionInfo.type (_parse_section_info config block_type (Some label)) = value).
Proof.
  split; [|split; [|split; [|split]]].
  - rewrite parse_section_info_label by discriminate. unfold lookup_text.
    rewrite (lower_latin1 (lit "Refrain 2")) by latin1_text.
    vm_compute. reflexivity.
  - intros config block_type label Hne. by rewrite parse_section_info_label.
  - intros config block_type label Hno. destruct label as [|c label]; [done|].
    rewrite parse_section_info_label by done. cbn [SectionInfo.type].
    by apply find_type_fallback.
  - done.
  - intros config block_type label before key value after Hne Htable Hno Hyes.
    rewrite parse_section_info_label by done. cbn [SectionInfo.type].
    rewrite Htable. by apply find_type_first.
Qed.
End section_info.

Section section_info_examples.
Import ChordProParser.
Local Existing Instance latin1_casing.

Lemma C7_parse_section_info_witness :
  SectionInfo.name
    (_parse_section_info ProcessorConfig.default (lit "verse") (Some (lit "Couplet 3")))
  = lit "Couplet 3"
  /\ SectionInfo.type
       (_parse_section_info ProcessorConfig.default (lit "verse") (Some (lit "Couplet 3")))
     = lit "verse".
Proof.
  split.
  - apply (proj1 (proj2 C7_parse_section_info)). discriminate.
  - apply (proj1 (proj2 (proj2 C7_parse_section_info))).
    intros key value Hin.
    repeat (apply elem_of_cons in Hin as [Hin|Hin];
            [injection Hin as -> ->; vm_compute; reflexivity|]).
    by apply elem_of_nil in Hin.
Defined.
End section_info_examples.

Section parse_file_sections.
Import ChordProParser.
Context `{casing : Casing}.

Lemma prefix_clash (s p q : str) (a b c : char) :
  (c =? b)%N = false ->
  startswith s (a :: b :: p) = true -> startswith s (a :: c :: q) = false.
Proof.
  intros Hcb. destruct s as [|x [|y s]]; cbn [startswith]; [done| |].
  - by rewrite !andb_false_r.
  - intros H. apply andb_prop in H as [_ H]. apply andb_prop in H as [H _].
    apply N.eqb_eq in H as <-. by rewrite Hcb, andb_false_r.
Qed.

Lemma start_not_comment s :
  startswith s (lit "{start_of_") = true -> startswith s (lit "{c:") = false.
Proof. by apply (prefix_clash s (lit "tart_of_") (lit ":") 123 115 99). Qed.

Lemma end_not_comment s :
  startswith s (lit "{end_of_") = true -> startswith s (lit "{c:") = false.
Proof. by apply (prefix_clash s (lit "nd_of_") (lit ":") 123 101 99). Qed.

Lemma end_not_start s :
  startswith s (lit "{end_of_") = true -> startswith s (lit "{start_of_") = false.
Proof. by apply (prefix_clash s (lit "nd_of_") (lit "tart_of_") 123 101 115). Qed.

Lemma parse_lines_snoc config lines line :
  parse_lines config (lines ++ [line]) = parse_line config (parse_lines config lines) line.
Proof. unfold parse_lines. by rewrite fold_left_app. Qed.

(** An end-of-block line emits the open section and closes it. *)
Lemma parse_line_end_of config st line :
  is_end_of line = true ->
  parse_line config st line =
  match open_section st with
  | Some sec =>
      ParseState (metadata st) (sections st ++ [sec]) (current_section_label st)
        [] None false
  | None => st
  end.
Proof.
  unfold is_end_of. intros H. unfold parse_line.
  by rewrite (end_not_comment _ H), (end_not_start _ H), H.
Qed.

(** A line changes the list of sections only by closing the open
    section, and only a block directive does. *)
Lemma parse_line_sections config st line :
  sections (parse_line config st line) = sections st
  \/ ((is_end_of line = true \/ is_start_of line = true)
      /\ exists sec, open_section st = Some sec
           /\ sections (parse_line config st line) = sections st ++ [sec]).
Proof.
  unfold parse_line, is_end_of, is_start_of.
  destruct (startswith (strip line) (lit "{c:")); [by left|].
  destruct (startswith (strip line) (lit "{start_of_")) eqn:Hs.
  { destruct (open_section st) as [sec|]; [|by left].
    right. split; [by right|]. by exists sec. }
  destruct (startswith (strip line) (lit "{end_of_")) eqn:He.
  { destruct (open_section st) as [sec|]; [|by left].
    right. split; [by left|]. by exists sec. }
  destruct (startswith (strip line) (lit "{")); by left.
Qed.

(** A section is open exactly when the parser is in a section, and
    every start-of-block line has opened one section: the ones returned
    and the one still open. *)
Lemma parse_lines_count config lines :
  let st := parse_lines config lines in
  (in_section st = true <-> is_Some (current_section_info st))
  /\ length (sections st) + (if in_section st then 1 else 0)
     = length (List.filter is_start_of lines).
Proof.
  induction lines as [|line lines IH] using rev_ind.
  - split; [|done]. split; [done|]. by intros [? ?].
  - rewrite parse_lines_snoc, List.filter_app, length_app. cbv zeta in IH.
    destruct IH as [Hopen Hcount].
    set (st := parse_lines config lines) in *. clearbody st.
    assert (forall sec, open_section st = Some sec -> in_section st = true) as Hsome.
    { unfold open_section. intros sec. destruct (current_section_info st); [|done].
      by destruct (in_section st). }
    assert (open_section st = None -> in_section st = false) as Hnone.
    { unfold open_section. destruct (current_section_info st) as [info|].
      - by destruct (in_section st).
      - destruct (in_section st); [|done].
        destruct (proj1 Hopen eq_refl) as [? ?]. done. }
    cbn [List.filter]. unfold is_start_of at 2. unfold parse_line.
    destruct (startswith (strip line) (lit "{c:")) eqn:Hc.
    { cbn [in_section current_section_info sections].
      destruct (startswith (strip line) (lit "{start_of_")) eqn:Hs.
      - apply start_not_comment in Hs. congruence.
      - split; [done|]. simpl. lia. }
    destruct (startswith (strip line) (lit "{start_of_")) eqn:Hs.
    { cbn [in_section current_section_info sections]. split; [split; eauto|].
      destruct (open_section st) as [sec|] eqn:Ho.
      - rewrite (Hsome _ eq_refl) in Hcount. rewrite length_app. simpl. lia.
      - rewrite (Hnone eq_refl) in Hcount. simpl. lia. }
    destruct (startswith (strip line) (lit "{end_of_")) eqn:He.
    { destruct (open_section st) as [sec|] eqn:Ho.
      - cbn [in_section current_section_info sections].
        rewrite (Hsome _ eq_refl) in Hcount. rewrite length_app. simpl.
        split; [|lia]. split; [done|]. by intros [? ?].
      - split; [done|]. simpl. lia. }
    destruct (startswith (strip line) (lit "{"));
      cbn [in_section current_section_info sections]; (split; [done|]); simpl; lia.
Qed.

Lemma split_lines_nonempty s : split_lines s <> [].
Proof.
  destruct s as [|c s]; simpl; [done|].
  destruct (c =? 10)%N; [done|]. by destruct (split_lines s).
Qed.

Lemma split_lines_single line : 10%N ∉ line -> split_lines line = [line].
Proof.
  induction line as [|c line IH]; intros H; simpl; [done|].
  apply not_elem_of_cons in H as [Hc Hl].
  destruct (N.eqb_spec c 10); [congruence|]. by rewrite IH.
Qed.

Lemma split_lines_app a b :
  split_lines (a ++ 10%N :: b) = split_lines a ++ split_lines b.
Proof.
  induction a as [|c a IH]; simpl; [done|].
  destruct (c =? 10)%N; [by rewrite IH|].
  rewrite IH. pose proof (split_lines_nonempty a).
  by destruct (split_lines a).
Qed.

(** C4, as amended: the section still open at the end of the text is not
    in the returned list (an end-of-block line added to the text adds
    exactly that section); every start-of-block line opens one section,
    and these are the returned sections and the one still open; a section
    is emitted only when it is closed, by an end-of-block line or by the
    next start-of-block line. *)
Theorem C4_open_section_not_returned config content :
  let st := parse_lines config (split_lines content) in
  (forall sec line,
      open_section st = Some sec -> is_end_of line = true -> 10%N ∉ line ->
      (parse_file config (content ++ [10%N] ++ line)).2
      = (parse_file config content).2 ++ [sec])
  /\ length (parse_file config content).2 + (if in_section st then 1 else 0)
     = length (List.filter is_start_of (split_lines content))
  /\ (forall lines line,
        let before := sections (parse_lines config lines) in
        let after := sections (parse_lines config (lines ++ [line])) in
        after = before
        \/ ((is_end_of line = true \/ is_start_of line = true)
            /\ exists sec, open_section (parse_lines config lines) = Some sec
                 /\ after = before ++ [sec])).
Proof.
  intros st. split; [|split].
  - intros sec line Hopen Hend Hline. unfold parse_file. cbn [snd].
    change ([10%N] ++ line) with (10%N :: line).
    rewrite split_lines_app, (split_lines_single line Hline), parse_lines_snoc.
    fold st. by rewrite parse_line_end_of, Hopen.
  - apply (parse_lines_count config (split_lines content)).
  - intros lines line before after. unfold after, before.
    rewrite parse_lines_snoc. apply parse_line_sections.
Qed.
End parse_file_sections.

Section parse_file_examples.
Import ChordProParser.
Local Existing Instance latin1_casing.

Lemma C4_open_section_not_returned_witness :
  (parse_file ProcessorConfig.default
     (lit "{start_of_verse}" ++ [10%N] ++ lit "La la" ++ [10%N] ++ lit "{end_of_verse}")).2
  = (parse_file ProcessorConfig.default
       (lit "{start_of_verse}" ++ [10%N] ++ lit "La la")).2
    ++ [ChordProSection.Build (lit "Verse") (lit "verse") None [lit "La la"] (lit "La la")].
Proof.
  apply (proj1 (C4_open_section_not_returned ProcessorConfig.default
                  (lit "{start_of_verse}" ++ [10%N] ++ lit "La la"))
           (ChordProSection.Build (lit "Verse") (lit "verse") None
              [lit "La la"] (lit "La la"))
           (lit "{end_of_verse}")).
  - vm_compute. reflexivity.
  - vm_compute. reflexivity.
  - intros H. vm_compute in H.
    repeat (apply elem_of_cons in H as [H|H]; [discriminate H|]).
    by apply elem_of_nil in H.
Defined.

(** C4 as stated fails in its second part: the verse of this text is
    returned although the text has no end-of-block line; the next
    start-of-block line has closed it. *)
Lemma C4_counterexample :
  let content :=
    lit "{start_of_verse}" ++ [10%N] ++ lit "La la" ++ [10%N]
    ++ lit "{start_of_chorus}" ++ [10%N] ++ lit "Oh oh" in
  (parse_file ProcessorConfig.default content).2
  = [ChordProSection.Build (lit "Verse") (lit "verse") None [lit "La la"] (lit "La la")]
  /\ List.filter is_end_of (split_lines content) = [].
Proof. split; vm_compute; reflexivity. Qed.
End parse_file_examples.

Section processor.
Import ChordProParser ChordProProcessor.
Local Abbreviation hash := ChordProSection.get_content_hash.

Lemma imap_shift_cons {A B} (g : nat -> A -> B) k x l :
  imap (fun i s => g (k + i) s) (x :: l) = g k x :: imap (fun i s => g (S k + i) s) l.
Proof.
  rewrite imap_cons. f_equal; [by rewrite Nat.add_0_r|].
  apply imap_ext. intros i y _. simpl. f_equal. lia.
Qed.

Lemma slide_ids_from_cons k x l :
  slide_ids_from k (x :: l) = slide_id_of k x :: slide_ids_from (S k) l.
Proof. apply (imap_shift_cons slide_id_of). Qed.

Lemma slide_ids_from_lookup k l j :
  slide_ids_from k l !! j = slide_id_of (k + j) <$> l !! j.
Proof. unfold slide_ids_from. by rewrite list_lookup_imap. Qed.

Lemma length_slide_ids_from k l : length (slide_ids_from k l) = length l.
Proof. apply length_imap. Qed.

(** The loop over the unique sections: the identifiers in order, the
    keys of the map, and the slide found under an identifier that is not
    given again later. *)
Lemma slide_fold config l : forall k slides ids,
  let r := fold_left (slide_step config) (imap (fun i s => (k + i, s)) l) (slides, ids) in
  r.2 = ids ++ slide_ids_from k l
  /\ (forall id, id ∉ slide_ids_from k l -> r.1 !! id = slides !! id)
  /\ (forall id, id ∈ slide_ids_from k l -> is_Some (r.1 !! id))
  /\ (NoDup (slide_ids_from k l) ->
      forall j s, l !! j = Some s ->
        r.1 !! slide_id_of (k + j) s
        = Some (_create_freeshow_slide config s (slide_id_of (k + j) s))).
Proof.
  induction l as [|x l IH]; intros k slides ids; cbv zeta.
  - cbn. rewrite app_nil_r. repeat split; try done.
    intros id Hid. by apply elem_of_nil in Hid.
  - rewrite (imap_shift_cons (fun n s => (n, s))), slide_ids_from_cons.
    cbn [fold_left]. unfold slide_step at 2.
    specialize (IH (S k)
                  (<[slide_id_of k x := _create_freeshow_slide config x (slide_id_of k x)]>
                     slides)
                  (ids ++ [slide_id_of k x])).
    cbv zeta in IH. destruct IH as (H1 & H2 & H3 & H4).
    split; [|split; [|split]].
    + rewrite H1. by rewrite <- app_assoc.
    + intros id Hid. apply not_elem_of_cons in Hid as [Hne Hid].
      rewrite H2 by done. by rewrite lookup_insert_ne.
    + intros id Hid. apply elem_of_cons in Hid as [->|Hid]; [|by apply H3].
      destruct (decide (slide_id_of k x ∈ slide_ids_from (S k) l)) as [Hin|Hout].
      * by apply H3.
      * rewrite H2 by done. rewrite lookup_insert_eq. eauto.
    + intros Hnd j s Hj. apply NoDup_cons in Hnd as [Hout Hnd].
      destruct j as [|j]; simpl in Hj.
      * injection Hj as <-. rewrite Nat.add_0_r, H2 by done.
        by rewrite lookup_insert_eq.
      * rewrite Nat.add_succ_r. by apply H4.
Qed.

Lemma build_slides_spec config unique :
  (build_slides config unique).2 = slide_ids_from 0 unique
  /\ (forall id, is_Some ((build_slides config unique).1 !! id)
                 <-> id ∈ slide_ids_from 0 unique)
  /\ (NoDup (slide_ids_from 0 unique) ->
      forall j s, unique !! j = Some s ->
        (build_slides config unique).1 !! slide_id_of j s
        = Some (_create_freeshow_slide config s (slide_id_of j s))).
Proof.
  destruct (slide_fold config unique 0 ∅ []) as (H1 & H2 & H3 & H4).
  split; [exact H1|]. split; [|exact H4].
  intros id. split; [|apply H3].
  intros Hsome. destruct (decide (id ∈ slide_ids_from 0 unique)) as [|Hout]; [done|].
  apply H2 in Hout. change (build_slides config unique).1 with
    (fold_left (slide_step config) (imap (fun i s => (0 + i, s)) unique) (∅, [])).1 in Hsome.
  rewrite Hout, lookup_empty in Hsome. by destruct Hsome.
Qed.

(** The unique sections and the index map, with or without
    deduplication. *)
Lemma unique_and_index_spec config sections :
  let unique := (unique_and_index config sections).1 in
  let index_map := (unique_and_index config sections).2 in
  length index_map = length sections
  /\ (forall j, j < length unique -> j ∈ index_map)
  /\ (forall k s, sections !! k = Some s ->
        exists j u, index_map !! k = Some j /\ unique !! j = Some u
                    /\ u ∈ sections /\ hash u = hash s).
Proof.
  unfold unique_and_index.
  destruct (ProcessorConfig.deduplicate_sections config); cbv zeta.
  - destruct (deduplicate_sections_inv sections) as (sm & Hlen & Hmap & Hidx & Hfirst).
    split; [done|]. split.
    + intros j Hj. apply lookup_lt_is_Some_2 in Hj as [s Hs].
      destruct (Hfirst j s Hs) as (i & _ & Hi & _).
      apply list_elem_of_lookup. eauto.
    + intros k s Hk. destruct (Hidx k s Hk) as (j & Hj1 & Hj2).
      apply Hmap in Hj1 as (u & Hu1 & Hu2).
      destruct (Hfirst j u Hu1) as (i & Hi & _).
      exists j, u. repeat split; try done.
      apply list_elem_of_lookup. eauto.
  - cbn [fst snd]. split; [apply length_seq|]. split.
    + intros j Hj. apply elem_of_seq. lia.
    + intros k s Hk. exists k, s. repeat split; try done.
      * apply lookup_seq. split; [done|]. by apply lookup_lt_Some in Hk.
      * apply list_elem_of_lookup. eauto.
Qed.

Lemma index_map_bound config sections k j :
  (unique_and_index config sections).2 !! k = Some j ->
  j < length (unique_and_index config sections).1.
Proof.
  intros Hk.
  destruct (unique_and_index_spec config sections) as (Hlen & _ & Hsec).
  assert (k < length sections) as Hlt.
  { rewrite <- Hlen. by apply lookup_lt_Some in Hk. }
  apply lookup_lt_is_Some_2 in Hlt as [s Hs].
  destruct (Hsec k s Hs) as (j' & u & Hj' & Hu & _).
  assert (j = j') as -> by congruence. by apply lookup_lt_Some in Hu.
Qed.

(** Under an identifier, the map of slides holds the slide of the last
    unique section that is given it. *)
Lemma slide_fold_last config l : forall k slides ids j s,
  l !! j = Some s ->
  (forall j' u, j < j' -> l !! j' = Some u ->
                slide_id_of (k + j') u <> slide_id_of (k + j) s) ->
  (fold_left (slide_step config) (imap (fun i s => (k + i, s)) l) (slides, ids)).1
    !! slide_id_of (k + j) s
  = Some (_create_freeshow_slide config s (slide_id_of (k + j) s)).
Proof.
  induction l as [|x l IH]; intros k slides ids j s Hj Hlast; [done|].
  rewrite (imap_shift_cons (fun n s => (n, s))). cbn [fold_left]. unfold slide_step at 2.
  destruct j as [|j]; simpl in Hj.
  - injection Hj as <-. rewrite Nat.add_0_r in *.
    destruct (slide_fold config l (S k)
                (<[slide_id_of k x := _create_freeshow_slide config x (slide_id_of k x)]>
                   slides)
                (ids ++ [slide_id_of k x])) as (_ & H2 & _).
    cbv zeta in H2. rewrite H2; [by rewrite lookup_insert_eq|].
    intros Hin. apply list_elem_of_lookup in Hin as [j' Hj'].
    rewrite slide_ids_from_lookup in Hj'.
    destruct (l !! j') as [u|] eqn:Hu; [|done]. injection Hj' as Hj'.
    apply (Hlast (S j') u); [lia|done|].
    by rewrite Nat.add_succ_r.
  - rewrite Nat.add_succ_r. apply (IH (S k)); [done|].
    intros j' u Hlt Hu. replace (S k + j') with (k + S j') by lia.
    replace (S k + j) with (k + S j) by lia. apply Hlast; [lia|done].
Qed.

Lemma build_slides_last config unique j s :
  unique !! j = Some s ->
  (forall j' u, j < j' -> unique !! j' = Some u -> slide_id_of j' u <> slide_id_of j s) ->
  (build_slides config unique).1 !! slide_id_of j s
  = Some (_create_freeshow_slide config s (slide_id_of j s)).
Proof. intros Hj Hlast. by apply (slide_fold_last config unique 0 ∅ [] j s). Qed.

End processor.

Section deck.
Import ChordProParser ChordProProcessor.
Context `{casing : Casing}.
Local Abbreviation hash := ChordProSection.get_content_hash.

(** [generate_freeshow_file] raises no [IndexError]; its result, field by
    field. *)
Lemma generate_freeshow_file_spec self filename content current_time :
  let config := ChordProProcessor.config self in
  let file_metadata := (parse_file config content).1 in
  let sections := (parse_file config content).2 in
  let unique := (unique_and_index config sections).1 in
  let index_map := (unique_and_index config sections).2 in
  let get key dflt := default dflt (file_metadata !! lit key) in
  exists show,
    generate_freeshow_file self filename content current_time
    = Some (take 11 (md5_hexdigest filename), show)
    /\ Show.slides show = (build_slides config unique).1
    /\ Show.layouts show !! Show.activeLayout show
       = Some (Layout.Build (lit "Default") (lit "1 voix")
                 (omap (fun i => slide_ids_from 0 unique !! i) index_map))
    /\ length (omap (fun i => slide_ids_from 0 unique !! i) index_map) = length sections
    /\ (forall k j, index_map !! k = Some j ->
          omap (fun i => slide_ids_from 0 unique !! i) index_map !! k
          = slide_ids_from 0 unique !! j)
    /\ Show.meta show =
       Meta.Build (get "number" []) (punctuate config (get "title" filename))
         (punctuate config (get "lyricist" [])) (punctuate config (get "lyricist" []))
         (punctuate config (get "composer" [])) (punctuate config (get "copyright" []))
         (get "year" []) (get "key" [])
    /\ Show.name show = punctuate config (get "title" filename)
    /\ Show.category show = category_of filename.
Proof.
  intros config file_metadata sections unique index_map get.
  pose proof (index_map_bound config sections) as Hbound.
  pose proof (unique_and_index_spec config sections) as (Hlen & _).
  pose proof (build_slides_spec config unique) as (Hids & _).
  fold unique index_map in Hbound, Hlen.
  unfold generate_freeshow_file, get, file_metadata. cbv zeta. fold config.
  destruct (parse_file config content) as [md secs] eqn:Eparse.
  cbn [fst snd] in *. subst sections.
  destruct (unique_and_index config secs) as [u im] eqn:Eui.
  cbn [fst snd] in *. subst unique index_map.
  destruct (build_slides config u) as [slides ids] eqn:Ebuild.
  cbn [fst snd] in *. subst ids.
  assert (forall l : list nat,
             (forall k j, l !! k = Some j -> j < length u) ->
             mapM (fun i => slide_ids_from 0 u !! i) l
             = Some (omap (fun i => slide_ids_from 0 u !! i) l)
             /\ length (omap (fun i => slide_ids_from 0 u !! i) l) = length l
             /\ forall k j, l !! k = Some j ->
                  omap (fun i => slide_ids_from 0 u !! i) l !! k
                  = slide_ids_from 0 u !! j) as Hmap.
  { clear. induction l as [|i l IH]; intros Hl; [done|].
    assert (i < length u) as Hi by (apply (Hl 0); done).
    rewrite <- (length_slide_ids_from 0) in Hi.
    apply lookup_lt_is_Some_2 in Hi as [id Hid].
    destruct IH as (IH1 & IH2 & IH3).
    { intros k j Hk. apply (Hl (S k)). done. }
    cbn [omap list_omap]. rewrite Hid. split; [|split].
    - cbn. rewrite Hid. cbn. rewrite IH1. done.
    - cbn. by rewrite IH2.
    - intros [|k] j Hk; cbn in Hk |- *; [congruence|by apply IH3]. }
  destruct (Hmap im Hbound) as (Hm1 & Hm2 & Hm3). rewrite Hm1. cbn.
  eexists. split; [reflexivity|]. cbn.
  split; [done|]. split; [by rewrite lookup_singleton_eq|].
  split; [congruence|]. split; [done|]. done.
Qed.
End deck.

Section punctuation_normalizer.
Import FrenchPunctuationHandler.

(** C3: the punctuation normalizer is idempotent, and the empty text is
    returned unchanged. *)
Theorem C3_fix_french_punctuation_idempotent :
  (forall x, fix_french_punctuation (fix_french_punctuation x) = fix_french_punctuation x)
  /\ fix_french_punctuation [] = [].
Proof. split; [apply fix_french_punctuation_steady|reflexivity]. Qed.
End punctuation_normalizer.

Section deck_properties.
Import ChordProParser ChordProProcessor.
Context `{casing : Casing}.
Local Abbreviation hash := ChordProSection.get_content_hash.

(** Every slide of the show is referred to by the active layout. *)
Lemma slides_in_layout self filename content current_time :
  exists show_id show layout,
    generate_freeshow_file self filename content current_time = Some (show_id, show)
    /\ Show.layouts show !! Show.activeLayout show = Some layout
    /\ forall slide_id, is_Some (Show.slides show !! slide_id) ->
         slide_id ∈ Layout.slides layout.
Proof.
  destruct (generate_freeshow_file_spec self filename content current_time)
    as (show & Hgen & Hslides & Hlayout & _ & Hlookup & _).
  set (config := ChordProProcessor.config self) in *.
  set (sections := (parse_file config content).2) in *.
  set (unique := (unique_and_index config sections).1) in *.
  set (index_map := (unique_and_index config sections).2) in *.
  eexists _, show, _. split; [exact Hgen|]. split; [exact Hlayout|].
  intros slide_id Hsome. cbn [Layout.slides].
  rewrite Hslides in Hsome.
  apply (proj1 (proj2 (build_slides_spec config unique))) in Hsome.
  apply list_elem_of_lookup in Hsome as [j Hj].
  assert (j < length unique) as Hlt.
  { rewrite <- (length_slide_ids_from 0). by apply lookup_lt_Some in Hj. }
  apply (proj1 (proj2 (unique_and_index_spec config sections))) in Hlt.
  apply list_elem_of_lookup in Hlt as [k Hk].
  apply list_elem_of_lookup. exists k.
  by rewrite (Hlookup k j Hk).
Qed.

(** C10: every index of the unique sections occurs in the index map of
    [deduplicate_sections]; and every slide identifier of the slides of a
    show occurs in the slide list of its layout. *)
Theorem C10_no_orphan_slide :
  (forall sections j,
      j < length (deduplicate_sections sections).1 ->
      j ∈ (deduplicate_sections sections).2)
  /\ (forall self filename content current_time,
        exists show_id show layout,
          generate_freeshow_file self filename content current_time
          = Some (show_id, show)
          /\ Show.layouts show !! Show.activeLayout show = Some layout
          /\ forall slide_id, is_Some (Show.slides show !! slide_id) ->
               slide_id ∈ Layout.slides layout).
Proof.
  split; [|apply slides_in_layout].
  intros sections j Hj.
  destruct (deduplicate_sections_inv sections) as (sm & _ & _ & _ & Hfirst).
  apply lookup_lt_is_Some_2 in Hj as [s Hs].
  destruct (Hfirst j s Hs) as (i & _ & Hi & _).
  apply list_elem_of_lookup. eauto.
Qed.


(** When the parsed file has no section, the show has no slide, its
    layout has no entry, and its metadata are the values of the directive
    map, the free-text ones normalized. *)
Lemma no_section_show self filename content current_time :
  let config := ChordProProcessor.config self in
  (parse_file config content).2 = [] ->
  let get key dflt := default dflt ((parse_file config content).1 !! lit key) in
  exists show,
    generate_freeshow_file self filename content current_time
    = Some (take 11 (md5_hexdigest filename), show)
    /\ Show.slides show = ∅
    /\ Show.layouts show !! Show.activeLayout show
       = Some (Layout.Build (lit "Default") (lit "1 voix") [])
    /\ Show.meta show =
       Meta.Build (get "number" []) (punctuate config (get "title" filename))
         (punctuate config (get "lyricist" [])) (punctuate config (get "lyricist" []))
         (punctuate config (get "composer" [])) (punctuate config (get "copyright" []))
         (get "year" []) (get "key" []).
Proof.
  intros config Hnone get.
  destruct (generate_freeshow_file_spec self filename content current_time)
    as (show & Hgen & Hslides & Hlayout & Hlen & _ & Hmeta & _).
  fold config in Hslides, Hlayout, Hlen, Hmeta.
  rewrite Hnone in *.
  assert (unique_and_index config [] = ([], [])) as Hui.
  { unfold unique_and_index. by destruct (ProcessorConfig.deduplicate_sections config). }
  rewrite Hui in *. cbn [fst snd] in *.
  exists show. split; [exact Hgen|]. split; [exact Hslides|].
  split; [exact Hlayout|]. exact Hmeta.
Qed.
End deck_properties.

Section deck_examples.
Import ChordProParser ChordProProcessor.
Local Existing Instance latin1_casing.
Local Abbreviation hash := ChordProSection.get_content_hash.



Lemma C10_no_orphan_slide_witness :
  let s1 := ChordProSection.Build (lit "Verse 1") (lit "verse") (Some (lit "1"))
              [lit "Line 1"; lit "Line 2"] (lit "Line 1" ++ [10%N] ++ lit "Line 2") in
  let s2 := ChordProSection.Build (lit "Verse 2") (lit "verse") (Some (lit "2"))
              [lit "Different"] (lit "Different") in
  1 ∈ (deduplicate_sections [s1; s1; s2]).2.
Proof.
  intros s1 s2.
  apply (proj1 C10_no_orphan_slide [s1; s1; s2] 1).
  vm_compute. lia.
Defined.
End deck_examples.

(** ** What a text keeps of a property of its characters *)

Section characters.
Context (φ : char -> Prop).

Local Abbreviation groups_ok := (groups_ok φ).
Local Abbreviation token_ok := (token_ok φ).

Lemma star_cls_Forall {R} p i s (k : nat -> str -> option R) res :
  star_cls p i s k = Some res -> Forall φ s ->
  exists j t, Forall φ t /\ k j t = Some res.
Proof.
  revert i. induction s as [|c s IH]; intros i Hres Hs; simpl in Hres; [eauto|].
  destruct (p c); [|eauto].
  destruct (star_cls p (S i) s k) as [r|] eqn:E; [|eauto].
  injection Hres as ->. apply (IH (S i)); [done|]. by inversion Hs.
Qed.

Lemma rmatch_Forall {R} r : forall i s g (k : nat -> str -> groups -> option R) res,
  rmatch r i s g k = Some res -> Forall φ s -> groups_ok g ->
  exists j t g', Forall φ t /\ groups_ok g' /\ k j t g' = Some res.
Proof.
  induction r as [p|p|a IHa b IHb|a IHa b IHb|a IHa|n a IHa| |];
    intros i s g k res Hres Hs Hg; cbn [rmatch] in Hres.
  - destruct s as [|c s]; [done|]. destruct (p c); [|done].
    exists (S i), s, g. repeat split; try done. by inversion Hs.
  - destruct (star_cls_Forall _ _ _ _ _ Hres Hs) as (j & t & Ht & Hk).
    by exists j, t, g.
  - destruct (IHa _ _ _ _ _ Hres Hs Hg) as (j & t & g' & Ht & Hg' & Hk).
    by apply (IHb _ _ _ _ _ Hk).
  - destruct (rmatch a i s g k) as [x|] eqn:E.
    + injection Hres as ->. by apply (IHa _ _ _ _ _ E).
    + by apply (IHb _ _ _ _ _ Hres).
  - destruct (rmatch a i s g k) as [x|] eqn:E.
    + injection Hres as ->. by apply (IHa _ _ _ _ _ E).
    + by exists i, s, g.
  - destruct (IHa _ _ _ _ _ Hres Hs Hg) as (j & t & g' & Ht & Hg' & Hk).
    exists j, t, ((n, take (j - i) s) :: g'). split; [done|]. split; [|done].
    constructor; [|done]. by apply Forall_take.
  - destruct (i =? 0); [by exists i, s, g|done].
  - destruct s as [|c [|c' s]]; [by exists i, [], g| |done].
    destruct (c =? 10)%N; [by exists i, [c], g|done].
Qed.

Lemma match_at_Forall r i s m :
  match_at r i s = Some m -> Forall φ s -> groups_ok (m_groups m).
Proof.
  intros Hm Hs. unfold match_at in Hm.
  destruct (rmatch_Forall _ _ _ _ _ _ Hm Hs) as (j & t & g' & _ & Hg' & Hk);
    [constructor|].
  by injection Hk as <-.
Qed.

Lemma group_Forall m n : groups_ok (m_groups m) -> Forall φ (group m n).
Proof.
  unfold group. generalize (m_groups m). intros g Hg.
  induction Hg as [|[k v] g Hv _ IH]; simpl; [constructor|].
  destruct (k =? n); [done|exact IH].
Qed.

Lemma scan_Forall r s : forall skip i,
  Forall φ s -> Forall token_ok (scan r skip i s).
Proof.
  induction s as [|c s IH]; intros skip i Hs; cbn [scan].
  - destruct skip; [|constructor].
    destruct (match_at r i []) as [m|] eqn:E; [|constructor].
    constructor; [|constructor]. by apply (match_at_Forall _ _ _ _ E).
  - inversion Hs as [|? ? Hc Hs']; subst.
    destruct skip as [|n]; [|by apply IH].
    destruct (match_at r i (c :: s)) as [m|] eqn:E.
    + pose proof (match_at_Forall _ _ _ _ E Hs) as Hm.
      destruct (m_end m - i); repeat constructor; try done; by apply IH.
    + constructor; [done|]. by apply IH.
Qed.

Lemma render_Forall repl ts :
  (forall m, groups_ok (m_groups m) -> Forall φ (repl m)) ->
  Forall token_ok ts -> Forall φ (render repl ts).
Proof.
  intros Hrepl Hts. unfold render. apply Forall_concat, Forall_fmap.
  eapply Forall_impl; [exact Hts|]. intros [c|m] Ht; simpl in *.
  - by constructor.
  - by apply Hrepl.
Qed.

Lemma sub_Forall r repl s :
  (forall m, groups_ok (m_groups m) -> Forall φ (repl m)) ->
  Forall φ s -> Forall φ (sub r repl s).
Proof. intros Hrepl Hs. apply render_Forall; [done|]. by apply scan_Forall. Qed.

Lemma search_Forall r s m :
  search r s = Some m -> Forall φ s -> groups_ok (m_groups m).
Proof.
  unfold search, finditer. intros Hm Hs.
  pose proof (scan_Forall r s 0 0 Hs) as Hts.
  induction Hts as [|[c|m'] ts Ht _ IH]; simpl in Hm; [done|by apply IH|].
  by injection Hm as <-.
Qed.

(** Stripping leaves characters of the text. *)
Lemma drop_while_Forall (p : char -> bool) s : Forall φ s -> Forall φ (drop_while p s).
Proof.
  induction 1 as [|c s Hc Hs IH]; simpl; [constructor|].
  destruct (p c); [done|by constructor].
Qed.

Lemma strip_Forall s : Forall φ s -> Forall φ (strip s).
Proof.
  intros Hs. unfold strip, rstrip, lstrip.
  apply Forall_reverse, drop_while_Forall, Forall_reverse. by apply drop_while_Forall.
Qed.

Lemma fix_french_punctuation_Forall s :
  φ FrenchPunctuationHandler.NBSP -> Forall φ s ->
  Forall φ (FrenchPunctuationHandler.fix_french_punctuation s).
Proof.
  intros Hn Hs. unfold FrenchPunctuationHandler.fix_french_punctuation.
  destruct s as [|c s]; [done|].
  apply sub_Forall.
  - intros m Hm. apply Forall_app. split; [by apply group_Forall|by repeat constructor].
  - apply sub_Forall; [|done].
    intros m Hm. constructor; [done|]. by apply group_Forall.
Qed.
End characters.

(** ** Lines *)

Lemma split_lines_newline_free s : Forall newline_free (split_lines s).
Proof.
  induction s as [|c s IH]; simpl; [by repeat constructor|].
  destruct (N.eqb_spec c 10) as [->|Hc].
  - constructor; [constructor|done].
  - destruct (split_lines s) as [|l ls]; [by repeat constructor|].
    inversion IH; subst. constructor; [by constructor|done].
Qed.

Lemma split_lines_line l : newline_free l -> split_lines l = [l].
Proof.
  induction 1 as [|c l Hc _ IH]; simpl; [done|].
  apply N.eqb_neq in Hc. by rewrite Hc, IH.
Qed.

Lemma split_lines_cons l s :
  newline_free l -> split_lines (l ++ 10%N :: s) = l :: split_lines s.
Proof.
  induction 1 as [|c l Hc _ IH]; simpl; [done|].
  apply N.eqb_neq in Hc. by rewrite Hc, IH.
Qed.

(** Joining lines and splitting the text gives the lines back. *)
Lemma split_lines_join ls :
  ls <> [] -> Forall newline_free ls -> split_lines (join_lines ls) = ls.
Proof.
  intros Hne Hls. induction Hls as [|l ls Hl Hls IH]; [done|].
  destruct ls as [|l' ls].
  - by apply split_lines_line.
  - change (join_lines (l :: l' :: ls)) with (l ++ 10%N :: join_lines (l' :: ls)).
    rewrite split_lines_cons by done. by rewrite IH.
Qed.

Section star_last.
Context {R : Type} (p : char -> bool).

(** A run of the class that reaches the end of the text, before a
    continuation that needs one character: the run is given back one
    character. *)
Lemma star_cls_last (k : nat -> str -> option R) w c : forall i,
  Forall (fun x => p x = true) w -> p c = true ->
  (forall j, k j [] = None) ->
  is_Some (k (i + length w) [c]) ->
  star_cls p i (w ++ [c]) k = k (i + length w) [c].
Proof.
  intros i Hw Hc Hnil. revert i.
  induction Hw as [|x w Hx _ IH]; intros i [r Hk]; cbn [app star_cls length] in *.
  - rewrite Hc, Hnil. by rewrite Nat.add_0_r.
  - rewrite Nat.add_succ_r in *. rewrite Hx, (IH (S i)) by (simpl; eauto).
    simpl. by rewrite Hk.
Qed.
End star_last.

Section directives.
Import ChordProParser.

(** The directive pattern on a line made of an opening brace, a key, a
    colon, a value of one line and a closing brace: the groups are the
    key and the value. *)
Lemma rematch_directive key w :
  key <> [] -> Forall (fun x => x <> 58%N) key -> newline_free w ->
  exists m, rematch DIRECTIVE_PATTERN (123%N :: key ++ 58%N :: w ++ [125%N]) = Some m
            /\ group m 1 = key /\ group m 2 = w.
Proof.
  intros Hne Hkey Hw. destruct key as [|y key]; [done|].
  assert (Forall (fun x => except 58 x = true) (y :: key)) as Hkey'.
  { eapply Forall_impl; [exact Hkey|]. intros x Hx. unfold except.
    by apply negb_true_iff, N.eqb_neq. }
  assert (Forall (fun x => dot x = true) w) as Hw'.
  { eapply Forall_impl; [exact Hw|]. intros x Hx. unfold dot, except.
    by apply negb_true_iff, N.eqb_neq. }
  inversion Hkey' as [|? ? Hy Hkey'']; subst.
  unfold rematch, match_at, DIRECTIVE_PATTERN, Plus. cbn [rmatch app].
  unfold only at 1. change (123 =? 123)%N with true. cbv iota.
  rewrite Hy.
  match goal with |- exists m, star_cls _ _ _ ?k = _ /\ _ => set (K := k) end.
  assert (exists m, K (2 + length key) (58%N :: w ++ [125%N]) = Some m
                    /\ group m 1 = y :: key /\ group m 2 = w) as (m & HK & Hg1 & Hg2).
  { unfold K. unfold only at 1. change (58 =? 58)%N with true. cbv iota.
    rewrite star_cls_last; [|done|reflexivity|reflexivity|].
    - unfold only. change (125 =? 125)%N with true. cbv iota.
      eexists. split; [reflexivity|]. unfold group. cbn [m_groups group_of Nat.eqb default].
      split.
      + replace (2 + length key - 1) with (length (y :: key)) by (simpl; lia).
        cbn [length take]. by rewrite take_app_length.
      + replace (S (2 + length key) + length w - S (2 + length key)) with (length w)
          by lia.
        by rewrite take_app_length.
    - unfold only. change (125 =? 125)%N with true. cbv iota. eauto. }
  assert (is_Some (K (2 + length (take_while (except 58) (key ++ 58%N :: w ++ [125%N])))
                     (drop_while (except 58) (key ++ 58%N :: w ++ [125%N])))) as Hsome.
  { rewrite take_while_app, drop_while_app by done. exists m. exact HK. }
  rewrite (star_cls_longest _ _ _ _ Hsome).
  rewrite take_while_app, drop_while_app by done.
  exists m. split; [exact HK|done].
Qed.

Lemma strip_braced s : strip (123%N :: s ++ [125%N]) = 123%N :: s ++ [125%N].
Proof.
  unfold strip, lstrip, rstrip. cbn [drop_while].
  change (isspace 123) with false. cbv iota.
  change (123%N :: s ++ [125%N]) with ((123%N :: s) ++ [125%N]).
  rewrite reverse_snoc. cbn [drop_while].
  change (isspace 125) with false. cbv iota.
  by rewrite <- reverse_snoc, reverse_involutive.
Qed.
End directives.

Section header_lines.
Import ChordProParser ChordProProcessor.
Context `{casing : Casing}.

Lemma rematch_directive_line k v :
  k <> [] -> Forall (fun x => x <> 58%N) k -> newline_free v ->
  exists m, rematch DIRECTIVE_PATTERN (directive k v) = Some m
            /\ group m 1 = k /\ group m 2 = 32%N :: v.
Proof.
  intros Hne Hk Hv.
  apply (rematch_directive k (32%N :: v) Hne Hk). by constructor.
Qed.

(** The directive lines of the header keys are directives of no other
    kind, and stripping changes neither the line nor the key. *)
Lemma header_line_kind k v :
  k ∈ header_keys ->
  startswith (directive k v) (lit "{c:") = false
  /\ startswith (directive k v) (lit "{start_of_") = false
  /\ startswith (directive k v) (lit "{end_of_") = false
  /\ startswith (directive k v) (lit "{") = true
  /\ k <> [] /\ Forall (fun x => x <> 58%N) k /\ strip k = k
  /\ strip (directive k v) = directive k v.
Proof.
  intros Hk. unfold header_keys in Hk.
  repeat (apply elem_of_cons in Hk as [->|Hk]); [..|by apply elem_of_nil in Hk].
  all: split; [reflexivity|]; split; [reflexivity|]; split; [reflexivity|].
  all: split; [reflexivity|]; split; [discriminate|].
  all: split; [repeat (constructor; [discriminate|]); constructor|].
  all: split; [reflexivity|].
  - apply (strip_braced (lit "number" ++ 58%N :: 32%N :: v)).
  - apply (strip_braced (lit "title" ++ 58%N :: 32%N :: v)).
  - apply (strip_braced (lit "lyricist" ++ 58%N :: 32%N :: v)).
  - apply (strip_braced (lit "composer" ++ 58%N :: 32%N :: v)).
  - apply (strip_braced (lit "copyright" ++ 58%N :: 32%N :: v)).
  - apply (strip_braced (lit "year" ++ 58%N :: 32%N :: v)).
  - apply (strip_braced (lit "key" ++ 58%N :: 32%N :: v)).
Qed.

(** A directive line of a header key records its stripped value. *)
Lemma parse_line_directive config st k v :
  k ∈ header_keys -> newline_free v ->
  parse_line config st (directive k v) =
  ParseState (<[k := strip v]> (ChordProParser.metadata st)) (sections st) (current_section_label st)
    (if in_section st then current_section_content st ++ [directive k v]
     else current_section_content st)
    (current_section_info st) (in_section st).
Proof.
  intros Hk Hv.
  destruct (header_line_kind k v Hk) as (H1 & H2 & H3 & H4 & Hne & Hcolon & Hstrip & Hline).
  destruct (rematch_directive_line k v Hne Hcolon Hv) as (m & Hm & Hg1 & Hg2).
  unfold parse_line. rewrite Hline, H1, H2, H3, H4, Hm, Hg1, Hg2, Hstrip.
  reflexivity.
Qed.

Lemma parse_line_blank config st :
  parse_line config st [] =
  ParseState (ChordProParser.metadata st) (sections st) (current_section_label st)
    (if in_section st then current_section_content st ++ [[]]
     else current_section_content st)
    (current_section_info st) (in_section st).
Proof. reflexivity. Qed.

(** The directive lines of header keys, read outside of a section. *)
Lemma parse_directives config pairs : forall st,
  in_section st = false ->
  Forall (fun kv => kv.1 ∈ header_keys /\ newline_free kv.2) pairs ->
  fold_left (parse_line config) (map (fun kv => directive kv.1 kv.2) pairs) st =
  ParseState (fold_left (fun m kv => <[kv.1 := strip kv.2]> m) pairs (ChordProParser.metadata st))
    (sections st) (current_section_label st) (current_section_content st)
    (current_section_info st) false.
Proof.
  induction pairs as [|[k v] pairs IH]; intros st Hst Hpairs; cbn [map fold_left].
  - rewrite <- Hst. by destruct st.
  - inversion Hpairs as [|? ? [Hk Hv] Hrest]; subst. cbn [fst snd] in *.
    rewrite parse_line_directive by done. rewrite Hst.
    rewrite IH by done. reflexivity.
Qed.
End header_lines.

Section enhanced_file.
Import ChordProParser ChordProProcessor.
Context `{casing : Casing}.

Lemma punctuate_nil config : punctuate config [] = [].
Proof. unfold punctuate. by destruct (ProcessorConfig.fix_french_punctuation config). Qed.

Lemma punctuate_newline_free config s :
  newline_free s -> newline_free (punctuate config s).
Proof.
  intros Hs. unfold punctuate.
  destruct (ProcessorConfig.fix_french_punctuation config); [|done].
  by apply fix_french_punctuation_Forall.
Qed.

Lemma extract_year_newline_free s year :
  extract_year_from_copyright s = Some year -> newline_free s -> newline_free year.
Proof.
  unfold extract_year_from_copyright. intros Hy Hs.
  destruct (search YEAR_PATTERN s) as [m|] eqn:E; [|done].
  injection Hy as <-. apply group_Forall. by apply (search_Forall _ _ _ _ E).
Qed.

(** The values of the directive map hold no line break. *)
Lemma parse_line_metadata config st line :
  newline_free line ->
  map_Forall (fun _ v => newline_free v) (ChordProParser.metadata st) ->
  map_Forall (fun _ v => newline_free v)
    (ChordProParser.metadata (parse_line config st line)).
Proof.
  intros Hline Hst. unfold parse_line.
  destruct (startswith (strip line) (lit "{c:")); [done|].
  destruct (startswith (strip line) (lit "{start_of_")); [done|].
  destruct (startswith (strip line) (lit "{end_of_")).
  { by destruct (open_section st). }
  destruct (startswith (strip line) (lit "{")); [|done]. cbn [ChordProParser.metadata].
  destruct (rematch DIRECTIVE_PATTERN (strip line)) as [m|] eqn:E; [|done].
  apply map_Forall_insert_2; [|done].
  apply strip_Forall, group_Forall.
  apply (match_at_Forall _ _ _ _ _ E). by apply strip_Forall.
Qed.

Lemma parse_file_metadata config content k v :
  (parse_file config content).1 !! k = Some v -> newline_free v.
Proof.
  unfold parse_file, parse_lines. cbn [fst].
  assert (forall lines st,
             Forall newline_free lines ->
             map_Forall (fun _ v => newline_free v) (ChordProParser.metadata st) ->
             map_Forall (fun _ v => newline_free v)
               (ChordProParser.metadata (fold_left (parse_line config) lines st))) as H.
  { induction lines as [|l lines IH]; intros st Hl Hst; [done|].
    inversion Hl; subst. cbn [fold_left]. apply IH; [done|].
    by apply parse_line_metadata. }
  intros Hk. eapply (H (split_lines content) initial_state); [| |exact Hk].
  - apply split_lines_newline_free.
  - apply map_Forall_empty.
Qed.

(** The header of the enhanced file. *)
Lemma enhanced_headers_pairs config csv_metadata key :
  enhanced_headers config csv_metadata
  ++ match key with
     | Some key => [directive (lit "key") key]
     | None => []
     end
  = map (fun kv => directive kv.1 kv.2) (header_pairs config csv_metadata key).
Proof.
  unfold enhanced_headers, header_pairs. rewrite map_app. f_equal.
  - destruct csv_metadata as [csv|]; [|done]. cbn [map app]. do 2 f_equal.
    rewrite !map_app. f_equal; [|f_equal].
    + by destruct (SongMetadata.author csv).
    + by destruct (SongMetadata.composer csv).
    + destruct (SongMetadata.copyright csv) as [|c r]; [done|].
      cbn [map app]. f_equal.
      by destruct (extract_year_from_copyright (c :: r)).
  - by destruct key.
Qed.

Lemma header_pairs_ok config csv_metadata key :
  (forall csv, csv_metadata = Some csv -> one_line_record csv) ->
  (forall k, key = Some k -> newline_free k) ->
  Forall (fun kv => kv.1 ∈ header_keys /\ newline_free kv.2)
    (header_pairs config csv_metadata key).
Proof.
  intros Hcsv Hkey. unfold header_pairs. apply Forall_app. split.
  - destruct csv_metadata as [csv|]; [|constructor].
    destruct (Hcsv csv eq_refl) as (Hn & Ht & Ha & Hc & Hr).
    cbn [app].
    apply Forall_cons. split; [split; [unfold header_keys; set_solver|done]|].
    apply Forall_cons. split.
    { split; [unfold header_keys; set_solver|by apply punctuate_newline_free]. }
    apply Forall_app. split; [|apply Forall_app; split].
    + destruct (SongMetadata.author csv) as [|a l]; constructor; [|constructor].
      split; [unfold header_keys; set_solver|]. by apply punctuate_newline_free.
    + destruct (SongMetadata.composer csv) as [|a l]; constructor; [|constructor].
      split; [unfold header_keys; set_solver|]. by apply punctuate_newline_free.
    + destruct (SongMetadata.copyright csv) as [|a l] eqn:E; [constructor|].
      constructor.
      { split; [unfold header_keys; set_solver|]. by apply punctuate_newline_free. }
      destruct (extract_year_from_copyright (a :: l)) as [y|] eqn:Ey; constructor;
        [|constructor].
      split; [unfold header_keys; set_solver|].
      by apply (extract_year_newline_free _ _ Ey).
  - destruct key as [k|]; constructor; [|constructor].
    split; [unfold header_keys; set_solver|]. by apply Hkey.
Qed.

Lemma directive_newline_free k v :
  k ∈ header_keys -> newline_free v -> newline_free (directive k v).
Proof.
  intros Hk Hv. unfold directive, newline_free. rewrite !Forall_app.
  repeat split; try done; try (repeat constructor; discriminate).
  unfold header_keys in Hk.
  repeat (apply elem_of_cons in Hk as [->|Hk]); [..|by apply elem_of_nil in Hk].
  all: repeat (constructor; [discriminate|]); constructor.
Qed.

(** The enhanced file of a file without sections, read again. *)
Lemma parse_enhanced self filename content :
  let config := ChordProProcessor.config self in
  let csv_metadata := ChordProProcessor.metadata self !! lower filename in
  (parse_file config content).2 = [] ->
  (forall csv, csv_metadata = Some csv -> one_line_record csv) ->
  parse_file config (enhance_chordpro self filename content)
  = (fold_left (fun m kv => <[kv.1 := strip kv.2]> m)
       (header_pairs config csv_metadata ((parse_file config content).1 !! lit "key")) ∅,
     []).
Proof.
  intros config csv_metadata Hnone Hcsv. unfold enhance_chordpro. fold config.
  destruct (parse_file config content) as [md sections] eqn:Eparse.
  cbn [fst snd] in *. subst sections. fold csv_metadata.
  cbn [flat_map]. rewrite app_nil_r, app_assoc, enhanced_headers_pairs.
  assert (Forall (fun kv => kv.1 ∈ header_keys /\ newline_free kv.2)
            (header_pairs config csv_metadata (md !! lit "key"))) as Hpairs.
  { apply header_pairs_ok; [done|]. intros k Hk.
    apply (parse_file_metadata config content (lit "key")). by rewrite Eparse. }
  unfold parse_file, parse_lines. rewrite split_lines_join.
  - rewrite fold_left_app, parse_directives by done. reflexivity.
  - by destruct (map _ _).
  - apply Forall_app. split; [|by repeat constructor].
    apply Forall_fmap. eapply Forall_impl; [exact Hpairs|].
    intros [k v] [Hk Hv]. by apply directive_newline_free.
Qed.
End enhanced_file.

Section pipeline.
Import ChordProParser ChordProProcessor.
Context `{casing : Casing}.

(** The show of a file without sections, generated from its enhanced
    file: the record of the metadata table, when there is one, gives the
    number, the title, the author, the composer, the copyright and the
    year, each read back from the directive it was written to; the key
    comes from the directives of the file. *)
Lemma process_no_section self filename content current_time :
  let config := ChordProProcessor.config self in
  let csv_metadata := ChordProProcessor.metadata self !! lower filename in
  let key := default [] (strip <$> (parse_file config content).1 !! lit "key") in
  (parse_file config content).2 = [] ->
  (forall csv, csv_metadata = Some csv -> one_line_record csv) ->
  exists show,
    process_single_file self filename content current_time
    = Some (take 11 (md5_hexdigest (filename ++ lit "-enhanced")), show)
    /\ Show.slides show = ∅
    /\ Show.layouts show !! Show.activeLayout show
       = Some (Layout.Build (lit "Default") (lit "1 voix") [])
    /\ Show.meta show =
       match csv_metadata with
       | Some csv =>
           Meta.Build (strip (SongMetadata.number csv))
             (punctuate config (strip (punctuate config (SongMetadata.title csv))))
             (punctuate config (strip (punctuate config (SongMetadata.author csv))))
             (punctuate config (strip (punctuate config (SongMetadata.author csv))))
             (punctuate config (strip (punctuate config (SongMetadata.composer csv))))
             (punctuate config (strip (punctuate config (SongMetadata.copyright csv))))
             (match extract_year_from_copyright (SongMetadata.copyright csv) with
              | Some year => strip year
              | None => []
              end)
             key
       | None =>
           Meta.Build [] (punctuate config (filename ++ lit "-enhanced")) [] [] [] [] [] key
       end.
Proof.
  intros config csv_metadata key Hnone Hcsv. unfold process_single_file.
  pose proof (no_section_show self (filename ++ lit "-enhanced")
                (enhance_chordpro self filename content) current_time) as H.
  cbv zeta in H.
  rewrite (parse_enhanced self filename content Hnone Hcsv) in H.
  fold config csv_metadata in H. cbn [fst snd] in H.
  destruct (H eq_refl) as (show & Hgen & Hslides & Hlayout & Hmeta). clear H.
  exists show. split; [exact Hgen|]. split; [exact Hslides|]. split; [exact Hlayout|].
  rewrite Hmeta. unfold key, header_pairs.
  destruct csv_metadata as [csv|].
  - destruct (SongMetadata.author csv) as [|a1 a2];
      destruct (SongMetadata.composer csv) as [|c1 c2];
      destruct (SongMetadata.copyright csv) as [|r1 r2];
      try destruct (extract_year_from_copyright (r1 :: r2)) as [year|];
      destruct ((parse_file config content).1 !! lit "key") as [k|];
      cbn [app fold_left fst snd fmap option_fmap option_map default];
      map_lookup; cbn [default]; rewrite ?punctuate_nil;
      change (strip []) with (@nil char); rewrite ?punctuate_nil; reflexivity.
  - destruct ((parse_file config content).1 !! lit "key") as [k|];
      cbn [app fold_left fst snd fmap option_fmap option_map default];
      map_lookup; cbn [default]; rewrite ?punctuate_nil; reflexivity.
Qed.
End pipeline.

Section no_section.
Import ChordProParser ChordProProcessor.
Context `{casing : Casing}.

(** C8, as amended: when the parsed file has no section, the show has no
    slide, its layout has no entry, and its metadata are the values of
    the directive map of that file alone, the free-text ones normalized
    and the title being the file name when there is none; the metadata
    table is not read.  The record of the table reaches the show through
    the enhanced file, which the show is generated from: for a file
    without sections and a record of one-line fields, the number, the
    title, the author, the composer, the copyright and the year of the
    show are those of the record, written to directives and read back,
    and the key is the one of the directives of the file. *)
Theorem C8_no_section_show :
  (forall self filename content current_time,
      let config := ChordProProcessor.config self in
      (parse_file config content).2 = [] ->
      let get key dflt := default dflt ((parse_file config content).1 !! lit key) in
      exists show,
        generate_freeshow_file self filename content current_time
        = Some (take 11 (md5_hexdigest filename), show)
        /\ Show.slides show = ∅
        /\ Show.layouts show !! Show.activeLayout show
           = Some (Layout.Build (lit "Default") (lit "1 voix") [])
        /\ Show.meta show =
           Meta.Build (get "number" []) (punctuate config (get "title" filename))
             (punctuate config (get "lyricist" [])) (punctuate config (get "lyricist" []))
             (punctuate config (get "composer" []))
             (punctuate config (get "copyright" []))
             (get "year" []) (get "key" [])
        /\ forall table,
             generate_freeshow_file (ChordProProcessor.Build config table)
               filename content current_time
             = generate_freeshow_file self filename content current_time)
  /\ (forall self filename content current_time,
        let config := ChordProProcessor.config self in
        let csv_metadata := ChordProProcessor.metadata self !! lower filename in
        let key := default [] (strip <$> (parse_file config content).1 !! lit "key") in
        (parse_file config content).2 = [] ->
        (forall csv, csv_metadata = Some csv -> one_line_record csv) ->
        exists show,
          process_single_file self filename content current_time
          = Some (take 11 (md5_hexdigest (filename ++ lit "-enhanced")), show)
          /\ Show.slides show = ∅
          /\ Show.layouts show !! Show.activeLayout show
             = Some (Layout.Build (lit "Default") (lit "1 voix") [])
          /\ Show.meta show =
             match csv_metadata with
             | Some csv =>
                 Meta.Build (strip (SongMetadata.number csv))
                   (punctuate config (strip (punctuate config (SongMetadata.title csv))))
                   (punctuate config (strip (punctuate config (SongMetadata.author csv))))
                   (punctuate config (strip (punctuate config (SongMetadata.author csv))))
                   (punctuate config
                      (strip (punctuate config (SongMetadata.composer csv))))
                   (punctuate config
                      (strip (punctuate config (SongMetadata.copyright csv))))
                   (match extract_year_from_copyright (SongMetadata.copyright csv) with
                    | Some year => strip year
                    | None => []
                    end)
                   key
             | None =>
                 Meta.Build [] (punctuate config (filename ++ lit "-enhanced"))
                   [] [] [] [] [] key
             end).
Proof.
  split.
  - intros self filename content current_time config Hnone get.
    destruct (no_section_show self filename content current_time Hnone)
      as (show & Hgen & Hslides & Hlayout & Hmeta).
    exists show. split; [exact Hgen|]. split; [exact Hslides|].
    split; [exact Hlayout|]. split; [exact Hmeta|].
    intros table. reflexivity.
  - apply process_no_section.
Qed.
End no_section.

Section no_section_examples.
Import ChordProParser ChordProProcessor.
Local Existing Instance latin1_casing.

Lemma C8_no_section_show_witness :
  exists show,
    process_single_file table_processor (lit "JEM001") only_key 0
    = Some (take 11 (md5_hexdigest (lit "JEM001-enhanced")), show)
    /\ Show.slides show = ∅
    /\ Show.meta show =
       Meta.Build (lit "jem001")
         (lit "Gloire" ++ [160%N] ++ lit ": joie" ++ [160%N] ++ lit "!")
         (lit "Jean Auteur") (lit "Jean Auteur") (lit "Anne Compositrice")
         (lit "Copyright 1995-2023 Maison") (lit "1995") (lit "G").
Proof.
  assert (ChordProProcessor.metadata table_processor !! lower (lit "JEM001")
          = Some song_record) as Hrecord by (vm_compute; reflexivity).
  destruct (proj2 C8_no_section_show table_processor (lit "JEM001") only_key 0%Z)
    as (show & Hgen & Hslides & _ & Hmeta).
  - vm_compute. reflexivity.
  - intros csv Hcsv. rewrite Hrecord in Hcsv. injection Hcsv as <-.
    unfold one_line_record, newline_free, song_record.
    cbn [SongMetadata.number SongMetadata.title SongMetadata.author
           SongMetadata.composer SongMetadata.copyright].
    repeat split; repeat (constructor; [discriminate|]); constructor.
  - exists show. split; [exact Hgen|]. split; [exact Hslides|].
    rewrite Hmeta. vm_compute. reflexivity.
Defined.

(** C8 as stated fails: the metadata table holds a record for this file,
    and the show generated from the file has none of its values; the
    title is the file name. *)
Lemma C8_counterexample :
  (parse_file ProcessorConfig.default only_key).2 = []
  /\ ChordProProcessor.metadata table_processor !! lower (lit "jem001") = Some song_record
  /\ SongMetadata.title song_record = lit "Gloire : joie !"
  /\ exists show_id show,
       generate_freeshow_file table_processor (lit "jem001") only_key 0
       = Some (show_id, show)
       /\ Show.meta show = Meta.Build [] (lit "jem001") [] [] [] [] [] (lit "G").
Proof.
  split; [vm_compute; reflexivity|]. split; [vm_compute; reflexivity|].
  split; [reflexivity|].
  eexists _, _. split; vm_compute; reflexivity.
Qed.
End no_section_examples.

(** ** Further properties of the code *)

Section strip_facts.
Lemma drop_while_stops {A} (p : A -> bool) l : stops p l -> drop_while p l = l.
Proof. destruct l as [|x l]; simpl; [done|]. by intros ->. Qed.

(** A stripped text neither starts nor ends on white space, so that
    stripping it again changes nothing. *)
Lemma strip_strip s : strip (strip s) = strip s.
Proof.
  unfold strip, rstrip, lstrip.
  pose proof (stops_drop_while isspace s) as Hu.
  set (u := drop_while isspace s) in *.
  pose proof (take_drop_while isspace (reverse u)) as Hsplit.
  pose proof (stops_drop_while isspace (reverse u)) as Hy.
  set (ry := drop_while isspace (reverse u)) in *.
  assert (drop_while isspace (reverse ry) = reverse ry) as ->.
  { apply drop_while_stops.
    apply (f_equal reverse) in Hsplit.
    rewrite reverse_app, reverse_involutive in Hsplit.
    destruct (reverse ry) as [|c y]; [done|].
    rewrite <- Hsplit in Hu. exact Hu. }
  rewrite reverse_involutive. by rewrite (drop_while_stops _ _ Hy).
Qed.
End strip_facts.

Section more_parsing.
Import ChordProParser ChordProProcessor.
Context `{casing : Casing}.

Lemma parse_line_stripped config st line :
  map_Forall (fun k v => strip k = k /\ strip v = v) (ChordProParser.metadata st) ->
  map_Forall (fun k v => strip k = k /\ strip v = v)
    (ChordProParser.metadata (parse_line config st line)).
Proof.
  intros Hst. unfold parse_line.
  destruct (startswith (strip line) (lit "{c:")); [done|].
  destruct (startswith (strip line) (lit "{start_of_")); [done|].
  destruct (startswith (strip line) (lit "{end_of_")).
  { by destruct (open_section st). }
  destruct (startswith (strip line) (lit "{")); [|done]. cbn [ChordProParser.metadata].
  destruct (rematch DIRECTIVE_PATTERN (strip line)) as [m|] eqn:E; [|done].
  apply map_Forall_insert_2; [|done]. split; apply strip_strip.
Qed.

(** X1: every key and every value of the directive map of a file is a
    stripped text, and every value is one line. *)
Theorem X1_directive_map_stripped config content k v :
  (parse_file config content).1 !! k = Some v ->
  strip k = k /\ strip v = v /\ newline_free v.
Proof.
  intros Hk. split; [|split]; [| |by apply (parse_file_metadata config content k)].
  all: revert Hk; unfold parse_file, parse_lines; cbn [fst].
  all: assert (forall lines st,
             map_Forall (fun k v => strip k = k /\ strip v = v)
               (ChordProParser.metadata st) ->
             map_Forall (fun k v => strip k = k /\ strip v = v)
               (ChordProParser.metadata (fold_left (parse_line config) lines st))) as H
    by (induction lines as [|l lines IH]; intros st Hst; [done|];
        cbn [fold_left]; apply IH; by apply parse_line_stripped).
  all: intros Hk;
    by destruct (H (split_lines content) initial_state (map_Forall_empty _) k v Hk).
Qed.

(** X4: the text written by [enhance_chordpro] for a file without
    sections and a record of one-line fields, read again by [parse_file]:
    no section, and the directive map of the keys and values written,
    each value stripped. *)
Theorem X4_enhanced_file_parsed self filename content :
  let config := ChordProProcessor.config self in
  let csv_metadata := ChordProProcessor.metadata self !! lower filename in
  (parse_file config content).2 = [] ->
  (forall csv, csv_metadata = Some csv -> one_line_record csv) ->
  parse_file config (enhance_chordpro self filename content)
  = (fold_left (fun m kv => <[kv.1 := strip kv.2]> m)
       (header_pairs config csv_metadata ((parse_file config content).1 !! lit "key")) ∅,
     []).
Proof. apply parse_enhanced. Qed.
End more_parsing.

Section more_text.
Import ChordProParser.

(** X3: the punctuation normalizer brings in no character but the
    non-breaking space: a property of the characters that the
    non-breaking space has passes from the text to the normalized
    text. *)
Theorem X3_punctuation_keeps_characters (φ : char -> Prop) text :
  φ FrenchPunctuationHandler.NBSP -> Forall φ text ->
  Forall φ (FrenchPunctuationHandler.fix_french_punctuation text).
Proof. apply fix_french_punctuation_Forall. Qed.

(** X5: on a line made of an opening brace, a key without colon, a
    colon, a value of one line and a closing brace, the directive
    pattern matches with the key and the whole value as its groups,
    closing braces inside the value included. *)
Theorem X5_directive_pattern key value :
  key <> [] -> Forall (fun x => x <> 58%N) key -> newline_free value ->
  exists m, rematch DIRECTIVE_PATTERN (123%N :: key ++ 58%N :: value ++ [125%N]) = Some m
            /\ group m 1 = key /\ group m 2 = value.
Proof. apply rematch_directive. Qed.

(** X6: lines joined by line breaks and split again are the same lines,
    when there is a line and none holds a line break. *)
Theorem X6_split_join_lines ls :
  ls <> [] -> Forall newline_free ls -> split_lines (join_lines ls) = ls.
Proof. apply split_lines_join. Qed.
End more_text.

Section more_examples.
Import ChordProParser ChordProProcessor.
Local Existing Instance latin1_casing.

Lemma X1_directive_map_stripped_witness :
  strip (lit "title") = lit "title" /\ strip (lit "Chant") = lit "Chant"
  /\ newline_free (lit "Chant").
Proof.
  apply (X1_directive_map_stripped ProcessorConfig.default repeated_verse).
  vm_compute. reflexivity.
Defined.

Lemma X3_punctuation_keeps_characters_witness :
  Forall (fun c => c <> 10%N)
    (FrenchPunctuationHandler.fix_french_punctuation (lit "Oui !")).
Proof.
  apply (X3_punctuation_keeps_characters (fun c => c <> 10%N) (lit "Oui !")).
  - discriminate.
  - repeat (constructor; [discriminate|]). constructor.
Defined.

Lemma X4_enhanced_file_parsed_witness :
  (parse_file ProcessorConfig.default
     (enhance_chordpro table_processor (lit "JEM001") only_key)).2 = [].
Proof.
  assert (ChordProProcessor.metadata table_processor !! lower (lit "JEM001")
          = Some song_record) as Hrecord by (vm_compute; reflexivity).
  rewrite (X4_enhanced_file_parsed table_processor (lit "JEM001") only_key).
  - reflexivity.
  - vm_compute. reflexivity.
  - intros csv Hcsv. rewrite Hrecord in Hcsv. injection Hcsv as <-.
    unfold one_line_record, newline_free, song_record.
    cbn [SongMetadata.number SongMetadata.title SongMetadata.author
           SongMetadata.composer SongMetadata.copyright].
    repeat split; repeat (constructor; [discriminate|]); constructor.
Defined.

Lemma X5_directive_pattern_witness :
  exists m, rematch DIRECTIVE_PATTERN (lit "{title: a}b}") = Some m
            /\ group m 1 = lit "title" /\ group m 2 = lit " a}b".
Proof.
  apply (X5_directive_pattern (lit "title") (lit " a}b")).
  - discriminate.
  - repeat (constructor; [discriminate|]). constructor.
  - repeat (constructor; [discriminate|]). constructor.
Defined.

Lemma X6_split_join_lines_witness :
  split_lines (join_lines [lit "{key: G}"; []; lit "La la"])
  = [lit "{key: G}"; []; lit "La la"].
Proof.
  apply X6_split_join_lines; [discriminate|].
  repeat (constructor; [repeat (constructor; [discriminate|]); constructor|]).
  constructor.
Defined.
End more_examples.

Section first_match.
(** The first match of a search: the pattern matches at its position and
    at no position before it; and when nothing is found, the pattern
    matches at no position. *)
Lemma scan_first r s : forall i m,
  head (hits (scan r 0 i s)) = Some m ->
  exists k, k <= length s /\ match_at r (i + k) (drop k s) = Some m
            /\ forall k', k' < k -> match_at r (i + k') (drop k' s) = None.
Proof.
  induction s as [|c s IH]; intros i m Hm; cbn [scan] in Hm.
  - destruct (match_at r i []) as [m'|] eqn:E; [|done]. injection Hm as ->.
    exists 0. rewrite Nat.add_0_r. repeat split; [done|done|lia].
  - destruct (match_at r i (c :: s)) as [m'|] eqn:E.
    + assert (m' = m) as -> by (destruct (m_end m' - i); by injection Hm).
      exists 0. rewrite Nat.add_0_r. repeat split; [lia|done|lia].
    + destruct (IH (S i) m Hm) as (k & Hk & Hmatch & Hnone).
      exists (S k). rewrite Nat.add_succ_r. repeat split; [simpl; lia|done|].
      intros [|k'] Hlt; [by rewrite Nat.add_0_r|].
      rewrite Nat.add_succ_r. apply Hnone. lia.
Qed.

Lemma scan_none r s : forall i,
  head (hits (scan r 0 i s)) = None ->
  forall k, k <= length s -> match_at r (i + k) (drop k s) = None.
Proof.
  induction s as [|c s IH]; intros i Hm k Hk; cbn [scan] in Hm.
  - assert (k = 0) as -> by (simpl in Hk; lia). rewrite Nat.add_0_r, drop_0.
    destruct (match_at r i []); [discriminate Hm|done].
  - destruct (match_at r i (c :: s)) as [m'|] eqn:E.
    { destruct (m_end m' - i); discriminate Hm. }
    destruct k as [|k]; [by rewrite Nat.add_0_r|].
    rewrite Nat.add_succ_r. apply (IH (S i)); [done|]. simpl in Hk. lia.
Qed.

(** The year pattern at a position: four decimal digits. *)
Lemma match_at_year i s :
  match_at YEAR_PATTERN i s =
  match s with
  | c1 :: c2 :: c3 :: c4 :: _ =>
      if isdecimal c1 && isdecimal c2 && isdecimal c3 && isdecimal c4
      then Some (MObj i (S (S (S (S i)))) [c1; c2; c3; c4] [(1, [c1; c2; c3; c4])])
      else None
  | _ => None
  end.
Proof.
  unfold match_at, YEAR_PATTERN. cbn [rmatch].
  destruct s as [|c1 [|c2 [|c3 [|c4 s]]]].
  - done.
  - by destruct (isdecimal c1).
  - by destruct (isdecimal c1), (isdecimal c2).
  - by destruct (isdecimal c1), (isdecimal c2), (isdecimal c3).
  - destruct (isdecimal c1), (isdecimal c2), (isdecimal c3), (isdecimal c4); try done.
    cbn [andb]. replace (S (S (S (S i))) - i) with 4 by lia. reflexivity.
Qed.

Lemma match_at_year_digits i s :
  match_at YEAR_PATTERN i s = None <-> four_digits_at s 0 = false.
Proof.
  rewrite match_at_year. unfold four_digits_at. rewrite drop_0.
  destruct s as [|c1 [|c2 [|c3 [|c4 s]]]]; try done.
  by destruct (isdecimal c1 && isdecimal c2 && isdecimal c3 && isdecimal c4).
Qed.

Lemma four_digits_drop s k : four_digits_at (drop k s) 0 = four_digits_at s k.
Proof. unfold four_digits_at. by rewrite drop_0. Qed.

(** X8: [extract_year_from_copyright] returns the first four decimal
    digits in a row of the text, and nothing when the text has no four
    decimal digits in a row. *)
Theorem X8_extract_year_from_copyright copyright_text :
  match extract_year_from_copyright copyright_text with
  | Some year =>
      exists k, four_digits_at copyright_text k = true
                /\ year = take 4 (drop k copyright_text)
                /\ forall k', k' < k -> four_digits_at copyright_text k' = false
  | None => forall k, four_digits_at copyright_text k = false
  end.
Proof.
  unfold extract_year_from_copyright, search, finditer.
  fold (hits (scan YEAR_PATTERN 0 0 copyright_text)).
  destruct (head (hits (scan YEAR_PATTERN 0 0 copyright_text))) as [m|] eqn:E.
  - destruct (scan_first _ _ _ _ E) as (k & Hk & Hm & Hnone). cbn [Nat.add] in *.
    exists k. rewrite match_at_year in Hm. rewrite <- four_digits_drop.
    unfold four_digits_at at 1. rewrite drop_0.
    destruct (drop k copyright_text) as [|c1 [|c2 [|c3 [|c4 t]]]]; try done.
    destruct (isdecimal c1 && isdecimal c2 && isdecimal c3 && isdecimal c4); [|done].
    injection Hm as <-. split; [done|]. split; [reflexivity|].
    intros k' Hlt. rewrite <- four_digits_drop. apply (match_at_year_digits k').
    by apply Hnone.
  - intros k. destruct (decide (k <= length copyright_text)) as [Hk|Hk].
    + rewrite <- four_digits_drop. apply (match_at_year_digits k).
      by apply (scan_none _ _ _ E k).
    + unfold four_digits_at. by rewrite drop_ge by lia.
Qed.
End first_match.

Section more_dedup.
Import ChordProParser ChordProProcessor.
Local Abbreviation hash := ChordProSection.get_content_hash.

Lemma unique_hashes sections :
  NoDup (hash <$> (deduplicate_sections sections).1).
Proof.
  destruct (deduplicate_sections_inv sections) as (sm & _ & Hmap & _).
  apply NoDup_alt. intros i j h Hi Hj. rewrite list_lookup_fmap in Hi, Hj.
  destruct ((deduplicate_sections sections).1 !! i) as [s|] eqn:Es; [|done].
  destruct ((deduplicate_sections sections).1 !! j) as [s'|] eqn:Es'; [|done].
  injection Hi as Hi. injection Hj as Hj.
  assert (sm !! h = Some i) as H1 by (apply Hmap; eauto).
  assert (sm !! h = Some j) as H2 by (apply Hmap; eauto).
  congruence.
Qed.

(** Sections of pairwise different content hashes, none of them in the
    map, are all kept. *)
Lemma dedup_fold_fresh l : forall u sm im,
  NoDup (hash <$> l) -> (forall s, s ∈ l -> sm !! hash s = None) ->
  exists sm', fold_left dedup_step l (u, sm, im)
              = (u ++ l, sm', im ++ seq (length u) (length l)).
Proof.
  induction l as [|s l IH]; intros u sm im Hnd Hfresh; cbn [fold_left].
  - exists sm. by rewrite !app_nil_r.
  - rewrite fmap_cons in Hnd. apply NoDup_cons in Hnd as [Hs Hnd].
    unfold dedup_step at 2. rewrite (Hfresh s) by apply list_elem_of_here.
    destruct (IH (u ++ [s]) (<[hash s := length u]> sm) (im ++ [length u]) Hnd)
      as (sm' & ->).
    + intros s' Hs'. rewrite lookup_insert_ne.
      * apply Hfresh. by apply list_elem_of_further.
      * intros Heq. apply Hs. rewrite Heq. by apply list_elem_of_fmap_2.
    + exists sm'. rewrite <- !app_assoc, length_app. cbn [length app seq].
      by rewrite Nat.add_1_r.
Qed.

(** X7: the unique sections of [deduplicate_sections] have pairwise
    different content hashes, and deduplicating them again keeps them
    all, each at its own index. *)
Theorem X7_unique_sections_distinct sections :
  let unique := (deduplicate_sections sections).1 in
  NoDup (hash <$> unique)
  /\ deduplicate_sections unique = (unique, seq 0 (length unique)).
Proof.
  intros unique. split; [apply unique_hashes|].
  unfold deduplicate_sections at 1.
  destruct (dedup_fold_fresh unique [] ∅ []) as (sm' & ->);
    [apply unique_hashes|intros; apply lookup_empty|done].
Qed.

(** X2: under a slide identifier, the map of slides holds the slide of
    the last unique section that is given this identifier, and the list
    of identifiers has the one of every unique section, in order. *)
Theorem X2_last_slide_wins config unique j s :
  unique !! j = Some s ->
  (forall j' u, j < j' -> unique !! j' = Some u -> slide_id_of j' u <> slide_id_of j s) ->
  (build_slides config unique).1 !! slide_id_of j s
  = Some (_create_freeshow_slide config s (slide_id_of j s))
  /\ (build_slides config unique).2
     = imap (fun i section => slide_id_of i section) unique.
Proof.
  intros Hj Hlast. split; [by apply build_slides_last|].
  apply (proj1 (build_slides_spec config unique)).
Qed.
End more_dedup.

Section more_sections.
Import ChordProParser.
Context `{casing : Casing}.

Lemma comment_not_block s :
  startswith s (lit "{c:") = true ->
  startswith s (lit "{start_of_") = false /\ startswith s (lit "{end_of_") = false.
Proof.
  intros H. split.
  - destruct (startswith s (lit "{start_of_")) eqn:E; [|done].
    by rewrite (start_not_comment _ E) in H.
  - destruct (startswith s (lit "{end_of_")) eqn:E; [|done].
    by rewrite (end_not_comment _ E) in H.
Qed.

Lemma parse_line_content config st line :
  Forall (fun l => is_start_of l = false /\ is_end_of l = false)
    (current_section_content st) ->
  Forall (fun sec => Forall (fun l => is_start_of l = false /\ is_end_of l = false)
                       (ChordProSection.content sec)) (sections st) ->
  Forall (fun l => is_start_of l = false /\ is_end_of l = false)
    (current_section_content (parse_line config st line))
  /\ Forall (fun sec => Forall (fun l => is_start_of l = false /\ is_end_of l = false)
                          (ChordProSection.content sec))
       (sections (parse_line config st line)).
Proof.
  intros Hc Hs.
  assert (forall sec, open_section st = Some sec ->
            Forall (fun l => is_start_of l = false /\ is_end_of l = false)
              (ChordProSection.content sec)) as Hopen.
  { unfold open_section. intros sec.
    destruct (current_section_info st); [|done]. destruct (in_section st); [|done].
    by intros [= <-]. }
  assert (forall ok : is_start_of line = false /\ is_end_of line = false,
            Forall (fun l => is_start_of l = false /\ is_end_of l = false)
              (if in_section st then current_section_content st ++ [line]
               else current_section_content st)) as Happend.
  { intros ok. destruct (in_section st); [|done].
    apply Forall_app. split; [done|]. constructor; [exact ok|constructor]. }
  unfold parse_line. unfold is_start_of, is_end_of in Happend.
  destruct (startswith (strip line) (lit "{c:")) eqn:E1.
  { cbn [current_section_content sections]. split; [|done].
    apply Happend. by apply comment_not_block. }
  destruct (startswith (strip line) (lit "{start_of_")) eqn:E2.
  { cbn [current_section_content sections]. split; [constructor|].
    destruct (open_section st) as [sec|] eqn:Eo; [|done].
    apply Forall_app. split; [done|]. constructor; [|constructor]. by apply Hopen. }
  destruct (startswith (strip line) (lit "{end_of_")) eqn:E3.
  { destruct (open_section st) as [sec|] eqn:Eo; [|done].
    cbn [current_section_content sections]. split; [constructor|].
    apply Forall_app. split; [done|]. constructor; [|constructor]. by apply Hopen. }
  destruct (startswith (strip line) (lit "{")); cbn [current_section_content sections];
    (split; [by apply Happend|done]).
Qed.

(** X9: no content line of a section returned by [parse_file] is a
    start-of-block or an end-of-block line, and the raw content of every
    section is its content lines joined by line breaks. *)
Theorem X9_section_content config content :
  Forall (fun sec =>
            Forall (fun l => is_start_of l = false /\ is_end_of l = false)
              (ChordProSection.content sec)
            /\ ChordProSection.raw_content sec = join_lines (ChordProSection.content sec))
    (parse_file config content).2.
Proof.
  unfold parse_file, parse_lines. cbn [snd].
  assert (forall lines st,
    (Forall (fun l => is_start_of l = false /\ is_end_of l = false)
       (current_section_content st)
     /\ Forall (fun sec => Forall (fun l => is_start_of l = false /\ is_end_of l = false)
                             (ChordProSection.content sec)) (sections st))
    /\ Forall (fun sec => ChordProSection.raw_content sec
                          = join_lines (ChordProSection.content sec)) (sections st) ->
    Forall (fun sec =>
              Forall (fun l => is_start_of l = false /\ is_end_of l = false)
                (ChordProSection.content sec)
              /\ ChordProSection.raw_content sec
                 = join_lines (ChordProSection.content sec))
      (sections (fold_left (parse_line config) lines st))) as H.
  { induction lines as [|l lines IH]; intros st [[Hc Hs] Hraw]; cbn [fold_left].
    - apply Forall_and. by split.
    - apply IH. split; [by apply parse_line_content|].
      destruct (parse_line_sections config st l) as [->|(_ & sec & Hopen & ->)]; [done|].
      apply Forall_app. split; [done|]. constructor; [|constructor].
      unfold open_section in Hopen.
      destruct (current_section_info st); [|done]. destruct (in_section st); [|done].
      by injection Hopen as <-. }
  apply H. by repeat split.
Qed.
End more_sections.

Section more_examples2.
Import ChordProParser ChordProProcessor.
Local Existing Instance latin1_casing.

Lemma X2_last_slide_wins_witness :
  let first := ChordProSection.Build (lit "Verse1") (lit "verse1") None
                 [lit "abc"] (lit "abc") in
  let second := ChordProSection.Build (lit "Verse") (lit "verse") None
                  [lit "0abc"] (lit "0abc") in
  (build_slides ProcessorConfig.default [first; second]).1 !! slide_id_of 1 second
  = Some (_create_freeshow_slide ProcessorConfig.default second (slide_id_of 1 second))
  /\ slide_id_of 0 first = slide_id_of 1 second.
Proof.
  intros first second. split; [|vm_compute; reflexivity].
  apply (X2_last_slide_wins ProcessorConfig.default [first; second] 1 second).
  - reflexivity.
  - intros [|[|j']] u Hlt Hu; [lia|lia|discriminate Hu].
Defined.

Lemma X8_extract_year_from_copyright_witness :
  exists k, four_digits_at (lit "Copyright 1995-2023") k = true
            /\ lit "1995" = take 4 (drop k (lit "Copyright 1995-2023"))
            /\ four_digits_at (lit "Copyright 1995-2023") 0 = false.
Proof.
  pose proof (X8_extract_year_from_copyright (lit "Copyright 1995-2023")) as H.
  change (extract_year_from_copyright (lit "Copyright 1995-2023"))
    with (Some (lit "1995")) in H.
  destruct H as (k & Hk & Hy & Hnone). exists k.
  split; [exact Hk|]. split; [exact Hy|].
  apply Hnone. destruct k as [|k]; [|lia]. discriminate Hk.
Defined.
End more_examples2.
